(** * HomePage.jsx: hero carousel, hot list and paginated feed

    A shallow embedding of [glyzier-frontend/src/pages/HomePage.jsx].

    The component is event driven.  Each React state variable becomes a
    record field, each callback a function on the record, and each
    suspended computation (a [setTimeout] callback, the code after an
    [await]) a pending item that stores what its closure captured and
    is resumed by a later event.  A callback always reads the state of
    the latest render: rendering is taken to be atomic with the state
    change that caused it.

    Not embedded: the aurora palette effect, routing and the markup,
    except for the conditions under which a control is rendered. *)

From Stdlib Require Import ZArith Lia String.
From stdpp Require Import base list sorting.

Local Open Scope Z_scope.

(** ** Numbers

    The carousel index is a JavaScript number.  Only integer values and
    [NaN] arise (the remainder by zero), so that is what is modelled. *)

Inductive num : Type :=
  | Int (z : Z)
  | NaN.

(** [a + k] and [a - k] for an integer literal [k]. *)
Definition num_add (a : num) (k : Z) : num :=
  match a with
  | Int z => Int (z + k)
  | NaN => NaN
  end.

(** [a % n]: the remainder takes the sign of the dividend, and the
    remainder by zero is [NaN]. *)
Definition num_rem (a : num) (n : Z) : num :=
  match a with
  | Int z => if n =? 0 then NaN else Int (Z.rem z n)
  | NaN => NaN
  end.

(** [index === a] for an integer [index]; [NaN] equals nothing. *)
Definition num_is (index : Z) (a : num) : bool :=
  match a with
  | Int z => index =? z
  | NaN => false
  end.

(** ** Products *)

Record Product : Type := mkProduct {
  pid : Z;
  productname : string;
  productdesc : string;
  screenshotPreviewUrl : option string;
  price : string (* only ever interpolated into text *)
}.

(** The comparator [(a, b) => b.pid - a.pid]. *)
Definition by_pid_desc (a b : Product) : Z := pid b - pid a.

(** [Array.prototype.sort] is stable: [a] goes in front of the first
    element it does not have to follow. *)
Fixpoint sort_insert (cmp : Product -> Product -> Z) (a : Product)
    (l : list Product) : list Product :=
  match l with
  | [] => [a]
  | b :: l' => if cmp a b <=? 0 then a :: l else b :: sort_insert cmp a l'
  end.

Definition sort (cmp : Product -> Product -> Z) (data : list Product)
    : list Product :=
  foldr (sort_insert cmp) [] data.

(** [const sortedData = data.sort((a, b) => b.pid - a.pid)] *)
Definition sortedData (data : list Product) : list Product :=
  sort by_pid_desc data.

(** [arr.slice(startIndex, endIndex)] for [0 <= startIndex <= endIndex]:
    both ends are clamped to the length. *)
Definition slice (startIndex endIndex : nat) (arr : list Product)
    : list Product :=
  take (endIndex - startIndex) (drop startIndex arr).

(** Descending identifier order. *)
Definition pid_ge (a b : Product) : Prop := pid b <= pid a.

Definition descending (l : list Product) : Prop := StronglySorted pid_ge l.

Definition same_pid (k : Z) (a : Product) : Prop := pid a = k.

#[global] Instance same_pid_dec k a : Decision (same_pid k a).
Proof. unfold same_pid. apply _. Defined.

#[global] Instance pid_ge_dec a b : Decision (pid_ge a b).
Proof. unfold pid_ge. apply _. Defined.

(** ** The carousel hook, [useCarousel] *)

(** The callback handed to [setTimeout], named by the index update it
    makes, with the [totalSlides] or [index] its closure captured.
    Every one of them also clears the transition flag. *)
Inductive timeout : Type :=
  | NextSlide (totalSlides : Z)
  | PrevSlide (totalSlides : Z)
  | ThisSlide (index : Z).

Definition setCurrentIndex (t : timeout) (prev : num) : num :=
  match t with
  | NextSlide totalSlides => num_rem (num_add prev 1) totalSlides
  | PrevSlide totalSlides =>
      num_rem (num_add (num_add prev (-1)) totalSlides) totalSlides
  | ThisSlide index => Int index
  end.

Record Carousel : Type := mkCarousel {
  currentIndex : num;
  isTransitioning : bool;
  (** pending [setTimeout] callbacks, oldest first; all have the same
      delay, so they run in this order *)
  timeouts : list timeout;
  (** the interval set by the effect, with the [totalSlides] it captured *)
  timer : option Z
}.

(** [setIsTransitioning(true); setTimeout(() => { ... }, 300)] *)
Definition beginTransition (t : timeout) (c : Carousel) : Carousel :=
  {| currentIndex := currentIndex c;
     isTransitioning := true;
     timeouts := timeouts c ++ [t];
     timer := timer c |}.

Definition goToNext (totalSlides : Z) (c : Carousel) : Carousel :=
  if isTransitioning c then c
  else beginTransition (NextSlide totalSlides) c.

Definition goToPrev (totalSlides : Z) (c : Carousel) : Carousel :=
  if isTransitioning c then c
  else beginTransition (PrevSlide totalSlides) c.

Definition goToSlide (index : Z) (c : Carousel) : Carousel :=
  if isTransitioning c || num_is index (currentIndex c) then c
  else beginTransition (ThisSlide index) c.

(** The effect with dependencies [[totalSlides, interval]]: the previous
    interval is cleared and, unless [totalSlides <= 1], a new one set. *)
Definition autoRotate (totalSlides : Z) (c : Carousel) : Carousel :=
  {| currentIndex := currentIndex c;
     isTransitioning := isTransitioning c;
     timeouts := timeouts c;
     timer := if totalSlides <=? 1 then None else Some totalSlides |}.

(** The interval comes due: its callback runs, if there is an interval. *)
Definition intervalElapsed (c : Carousel) : Carousel :=
  match timer c with
  | None => c
  | Some totalSlides => beginTransition (NextSlide totalSlides) c
  end.

(** The oldest pending timeout comes due. *)
Definition timeoutElapsed (c : Carousel) : Carousel :=
  match timeouts c with
  | [] => c
  | t :: rest =>
      {| currentIndex := setCurrentIndex t (currentIndex c);
         isTransitioning := false;
         timeouts := rest;
         timer := timer c |}
  end.

(** First render of the hook. *)
Definition useCarousel (totalSlides : Z) : Carousel :=
  autoRotate totalSlides
    {| currentIndex := Int 0; isTransitioning := false;
       timeouts := []; timer := None |}.

(** ** The feed paginator *)

Record Feed : Type := mkFeed {
  feedProducts : list Product;
  feedPage : nat;
  feedLoading : bool;
  feedHasMore : bool;
  (** calls of [loadMoreFeedProducts] suspended at the [await], each
      with the [feedPage] its closure captured *)
  feedAwaiting : list nat;
  (** every call made to [getAllProducts] by the paginator so far, by
      the page it was made for (a record of the calls, not read by the
      component) *)
  feedCalls : list nat
}.

(** Result of [await getAllProducts()]. *)
Inductive outcome : Type :=
  | Resolved (data : list Product)
  | Rejected.

Definition pageSize : nat := 12.

(** [loadMoreFeedProducts] up to the [await]. *)
Definition loadMoreFeedProducts (f : Feed) : Feed :=
  if feedLoading f || negb (feedHasMore f) then f
  else
    {| feedProducts := feedProducts f;
       feedPage := feedPage f;
       feedLoading := true;
       feedHasMore := feedHasMore f;
       feedAwaiting := feedAwaiting f ++ [feedPage f];
       feedCalls := feedCalls f ++ [feedPage f] |}.

(** The page cut out of the sorted collection. *)
Definition pageData (page : nat) (data : list Product) : list Product :=
  let startIndex := (page * pageSize)%nat in
  let endIndex := (startIndex + pageSize)%nat in
  slice startIndex endIndex (sortedData data).

(** [loadMoreFeedProducts] from the [await] on, for the call that
    captured [page]. *)
Definition loadMoreSettled (page : nat) (o : outcome) (f : Feed) : Feed :=
  match o with
  | Resolved data =>
      let endIndex := (page * pageSize + pageSize)%nat in
      if (length (pageData page data) =? 0)%nat then
        {| feedProducts := feedProducts f;
           feedPage := feedPage f;
           feedLoading := false;
           feedHasMore := false;
           feedAwaiting := feedAwaiting f;
           feedCalls := feedCalls f |}
      else
        {| feedProducts := feedProducts f ++ pageData page data;
           feedPage := (feedPage f + 1)%nat;
           feedLoading := false;
           feedHasMore :=
             if (length (sortedData data) <=? endIndex)%nat then false
             else feedHasMore f;
           feedAwaiting := feedAwaiting f;
           feedCalls := feedCalls f |}
  | Rejected =>
      {| feedProducts := feedProducts f;
         feedPage := feedPage f;
         feedLoading := false;
         feedHasMore := feedHasMore f;
         feedAwaiting := feedAwaiting f;
         feedCalls := feedCalls f |}
  end.

(** The oldest suspended call is resumed with the outcome [o]. *)
Definition feedSettled (o : outcome) (f : Feed) : Feed :=
  match feedAwaiting f with
  | [] => f
  | page :: rest =>
      loadMoreSettled page o
        {| feedProducts := feedProducts f;
           feedPage := feedPage f;
           feedLoading := feedLoading f;
           feedHasMore := feedHasMore f;
           feedAwaiting := rest;
           feedCalls := feedCalls f |}
  end.

(** The intersection observer's callback. *)
Definition sentinelObserved (isIntersecting : bool) (f : Feed) : Feed :=
  if isIntersecting && feedHasMore f && negb (feedLoading f)
  then loadMoreFeedProducts f
  else f.

(** A whole call of the fetch operation: invoked, then settled. *)
Definition fetchFeed (o : outcome) (f : Feed) : Feed :=
  feedSettled o (loadMoreFeedProducts f).

(** ** The component, [HomePage] *)

Record View : Type := mkView {
  products : list Product;
  loading : bool;
  error : option string;
  (** [fetchProducts] is suspended at its [await] *)
  productsAwaiting : bool;
  hero : Carousel;
  feed : Feed
}.

(** [const heroSlides = Math.min(products.length, 5)] *)
Definition heroSlides (products : list Product) : Z :=
  Z.min (Z.of_nat (length products)) 5.

Definition newFeed : Feed :=
  {| feedProducts := []; feedPage := 0; feedLoading := false;
     feedHasMore := true; feedAwaiting := []; feedCalls := [] |}.

(** The first render: every [useState] at its initial value. *)
Definition firstRender : View :=
  {| products := []; loading := true; error := None;
     productsAwaiting := false;
     hero := useCarousel (heroSlides []);
     feed := newFeed |}.

(** [fetchProducts] up to the [await]. *)
Definition fetchProducts (v : View) : View :=
  {| products := products v; loading := true; error := error v;
     productsAwaiting := true; hero := hero v; feed := feed v |}.

(** [fetchProducts] from the [await] on.  The render that follows runs
    the carousel effect with the new slide count. *)
Definition fetchProductsSettled (o : outcome) (v : View) : View :=
  match o with
  | Resolved data =>
      let shown := slice 0 8 (sortedData data) in
      {| products := shown; loading := false; error := None;
         productsAwaiting := false;
         hero := autoRotate (heroSlides shown) (hero v);
         feed := feed v |}
  | Rejected =>
      {| products := products v; loading := false;
         error := Some "Failed to load art."%string;
         productsAwaiting := false; hero := hero v; feed := feed v |}
  end.

Definition withHero (g : Carousel -> Carousel) (v : View) : View :=
  {| products := products v; loading := loading v; error := error v;
     productsAwaiting := productsAwaiting v;
     hero := g (hero v); feed := feed v |}.

Definition withFeed (g : Feed -> Feed) (v : View) : View :=
  {| products := products v; loading := loading v; error := error v;
     productsAwaiting := productsAwaiting v;
     hero := hero v; feed := g (feed v) |}.

(** What can happen to a mounted component. *)
Inductive event : Type :=
  | IntervalElapsed
  | TimeoutElapsed
  | ClickNext
  | ClickPrev
  | ClickIndicator (index : nat)
  | ProductsSettled (o : outcome)
  | FeedSettled (o : outcome)
  | SentinelObserved (isIntersecting : bool).

(** The two arrows are always rendered.  The indicators are rendered
    when [heroSlides > 1], one for each of [products.slice(0, 5)]. *)
Definition step (e : event) (v : View) : View :=
  match e with
  | IntervalElapsed => withHero intervalElapsed v
  | TimeoutElapsed => withHero timeoutElapsed v
  | ClickNext => withHero (goToNext (heroSlides (products v))) v
  | ClickPrev => withHero (goToPrev (heroSlides (products v))) v
  | ClickIndicator index =>
      if (1 <? heroSlides (products v))
         && (index <? length (take 5 (products v)))%nat
      then withHero (goToSlide (Z.of_nat index)) v
      else v
  | ProductsSettled o =>
      if productsAwaiting v then fetchProductsSettled o v else v
  | FeedSettled o => withFeed (feedSettled o) v
  | SentinelObserved isIntersecting =>
      withFeed (sentinelObserved isIntersecting) v
  end.

Definition run (es : list event) (v : View) : View :=
  foldl (fun v e => step e v) v es.

(** The component once its mount effects have run: [fetchProducts()]
    and the initial [loadMoreFeedProducts()]. *)
Definition mount : View :=
  withFeed loadMoreFeedProducts (fetchProducts firstRender).

(** The states a mounted component can be in. *)
Inductive reachable : View -> Prop :=
  | reachable_mount : reachable mount
  | reachable_step e v : reachable v -> reachable (step e v).

(** The index names one of [slides] slides. *)
Definition index_below (slides : Z) (a : num) : Prop :=
  exists i, a = Int i /\ 0 <= i < slides.

(** The states reached when no arrow is clicked while there is no slide
    to show. *)
Definition with_slides (v : View) (e : event) : Prop :=
  match e with
  | ClickNext | ClickPrev => 1 <= heroSlides (products v)
  | _ => True
  end.

Inductive reachable_with_slides : View -> Prop :=
  | with_slides_mount : reachable_with_slides mount
  | with_slides_step e v :
      reachable_with_slides v -> with_slides v e ->
      reachable_with_slides (step e v).

(** The number of non-empty pages of a collection of [size] products. *)
Definition pageCount (size : nat) : nat :=
  ((size + (pageSize - 1)) / pageSize)%nat.

(** The feed after [n] whole calls of the fetch operation, each of
    which received the same collection. *)
Definition fetchedFeed (data : list Product) (n : nat) : Feed :=
  Nat.iter n (fetchFeed (Resolved data)) newFeed.

(** A pending timeout that was set for [slides] slides. *)
Definition set_for (slides : Z) (t : timeout) : Prop :=
  match t with
  | NextSlide totalSlides | PrevSlide totalSlides => totalSlides = slides
  | ThisSlide index => 0 <= index < slides
  end.

(** What holds of the carousel in every state reached without an arrow
    click on an empty carousel. *)
Definition hero_inv (v : View) : Prop :=
  let slides := heroSlides (products v) in
  (productsAwaiting v = true -> products v = [])
  /\ timer (hero v) = (if slides <=? 1 then None else Some slides)
  /\ (slides = 0 ->
        currentIndex (hero v) = Int 0 /\ timeouts (hero v) = [])
  /\ (1 <= slides ->
        index_below slides (currentIndex (hero v))
        /\ Forall (set_for slides) (timeouts (hero v))).

(** One auto-advance: the interval comes due, then its timeout. *)
Definition autoAdvance (c : Carousel) : Carousel :=
  timeoutElapsed (intervalElapsed c).

(** The events that are carousel operations. *)
Definition carousel_event (e : event) : Prop :=
  match e with
  | IntervalElapsed | TimeoutElapsed
  | ClickNext | ClickPrev | ClickIndicator _ => True
  | _ => False
  end.

(** The sentinel is not in the viewport at this event. *)
Definition out_of_view (e : event) : Prop :=
  e <> SentinelObserved true.

(** ** Collections to run the component on *)

Definition item (k : Z) : Product :=
  {| pid := k; productname := EmptyString; productdesc := EmptyString;
     screenshotPreviewUrl := None; price := EmptyString |}.

Definition items (ks : list Z) : list Product := item <$> ks.

Definition twenty : list Product :=
  items [7; 3; 18; 1; 12; 20; 5; 9; 15; 2; 11; 4; 19; 8; 14; 6; 17; 10; 16; 13].

Definition five : list Product := items [2; 5; 1; 4; 3].

(** ** What is rendered *)

(** [!value] for a value that is a string, [null] or [undefined]. *)
Definition falsy (value : option string) : bool :=
  match value with
  | None | Some EmptyString => true
  | Some _ => false
  end.

(** [value || fallback] *)
Definition or_else (value : option string) (fallback : string) : string :=
  match value with
  | None | Some EmptyString => fallback
  | Some s => s
  end.

(** [products[heroIndex]]: [undefined] unless the index is an integer
    within the array. *)
Definition at_index (arr : list Product) (a : num) : option Product :=
  match a with
  | Int i => if 0 <=? i then arr !! Z.to_nat i else None
  | NaN => None
  end.

Definition heroProduct (v : View) : option Product :=
  at_index (products v) (currentIndex (hero v)).

(** The heading of the hero section. *)
Definition heroTitle (v : View) : string :=
  if (0 <? length (products v))%nat
  then or_else (productname <$> heroProduct v) "Eye in Abstract"
  else "Explore The Art World".

(** Where GET IT NOW navigates, as the identifier in
    [/products/${pid}]; nowhere without a product. *)
Definition getItNow (v : View) : option Z :=
  if (0 <? length (products v))%nat then pid <$> heroProduct v else None.

(** The indicator buttons, each with whether it is the active one. *)
Definition indicators (v : View) : list bool :=
  if 1 <? heroSlides (products v)
  then imap (fun index _ => num_is (Z.of_nat index) (currentIndex (hero v)))
         (take 5 (products v))
  else [].

(** The hot-arts grid, rendered when [!loading && !error]. *)
Definition hotArts (v : View) : option (list Product) :=
  if negb (loading v) && falsy (error v) then Some (products v) else None.

(** ** Whole operations *)

(** Go next or go previous, and the timeout that completes it. *)
Definition nextSlide (totalSlides : Z) (c : Carousel) : Carousel :=
  timeoutElapsed (goToNext totalSlides c).

Definition prevSlide (totalSlides : Z) (c : Carousel) : Carousel :=
  timeoutElapsed (goToPrev totalSlides c).

Definition thisSlide (index : Z) (c : Carousel) : Carousel :=
  timeoutElapsed (goToSlide index c).

(** A carousel at rest on slide [i], with the interval the effect sets
    for [totalSlides] slides. *)
Definition resting (totalSlides : Z) (a : num) : Carousel :=
  autoRotate totalSlides
    {| currentIndex := a; isTransitioning := false;
       timeouts := []; timer := None |}.

(** The outstanding page arrives and the sentinel, pushed down by it or
    not, is observed in the viewport. *)
Definition scroll (data : list Product) (v : View) : View :=
  step (SentinelObserved true) (step (FeedSettled (Resolved data)) v).

Definition scrolled (data : list Product) (n : nat) : View :=
  Nat.iter n (scroll data) mount.

(** The pages of a collection, first to last. *)
Definition pages (data : list Product) : list (list Product) :=
  (fun page => pageData page data) <$> seq 0 (pageCount (length data)).

(** ** Invariants *)

(** A page number and the one requested after it. *)
Definition next_or_same (a b : nat) : Prop := (a <= b <= S a)%nat.

Definition feed_inv (f : Feed) : Prop :=
  (if feedLoading f
   then feedHasMore f = true /\ feedAwaiting f = [feedPage f]
   else feedAwaiting f = [])
  /\ (feedPage f <= length (feedProducts f) <= feedPage f * pageSize)%nat
  /\ Sorted next_or_same (feedCalls f)
  /\ head (feedCalls f) = Some 0%nat
  /\ exists p, last (feedCalls f) = Some p
       /\ next_or_same p (feedPage f)
       /\ (feedLoading f = true -> p = feedPage f).

(** The flag is only set with a timeout pending to clear it; without
    an interval at most one timeout is pending, and the flag is set
    while it is. *)
Definition flag_inv (c : Carousel) : Prop :=
  (isTransitioning c = true -> timeouts c <> [])
  /\ (timer c = None ->
        (length (timeouts c) <= 1)%nat
        /\ (timeouts c <> [] -> isTransitioning c = true)).

Definition view_inv (v : View) : Prop :=
  loading v = productsAwaiting v
  /\ (productsAwaiting v = true -> products v = [] /\ error v = None)
  /\ (falsy (error v) = false -> products v = [])
  /\ (exists data, products v = slice 0 8 (sortedData data))
  /\ timer (hero v)
     = (if heroSlides (products v) <=? 1 then None
        else Some (heroSlides (products v)))
  /\ flag_inv (hero v).

(** ** The aurora palette *)

(** The initial [auroraColors]. *)
Definition defaultColors : list string :=
  ["#c9bfe8"; "#b8afe8"; "#9b8dd4"]%string.

(** A product's [screenshotPreviewUrl], when it is truthy. *)
Definition imageOf (p : Product) : option string :=
  match screenshotPreviewUrl p with
  | None | Some EmptyString => None
  | Some url => Some url
  end.

(** [products[heroIndex]?.screenshotPreviewUrl], when it is truthy. *)
Definition heroImage (v : View) : option string :=
  match heroProduct v with
  | Some p => imageOf p
  | None => None
  end.

(** The component with its palette. *)
Record Page : Type := mkPage {
  view : View;
  auroraColors : list string;
  (** calls of [updateAuroraColors] suspended at the [await], each with
      the image it asked the colours of *)
  extracting : list string
}.

(** [Object.is], by which an effect compares a dependency with its
    last value, on the numbers the index takes. *)
Definition same_number (a b : num) : bool :=
  match a, b with
  | Int x, Int y => x =? y
  | NaN, NaN => true
  | _, _ => false
  end.

(** The event calls [setProducts], with an array that is new. *)
Definition setsProducts (e : event) (v : View) : bool :=
  match e with
  | ProductsSettled (Resolved _) => productsAwaiting v
  | _ => false
  end.

(** [updateAuroraColors] up to the [await]. *)
Definition updateAuroraColors (pg : Page) : Page :=
  if (0 <? length (products (view pg)))%nat then
    match heroImage (view pg) with
    | Some url =>
        {| view := view pg; auroraColors := auroraColors pg;
           extracting := extracting pg ++ [url] |}
    | None => pg
    end
  else pg.

Section Aurora.

(** The colours [extractColorsFromImage] resolves to, and
    [enhanceColorsForAurora]; both come from [utils/colorExtractor]. *)
Variable Colors : Type.
Variable enhanceColorsForAurora : Colors -> list string.

Inductive pageEvent : Type :=
  | OnView (e : event)
  (** the [k]-th suspended extraction resolves, or is rejected *)
  | ExtractionSettled (k : nat) (extractedColors : option Colors).

(** An event of the component is followed by the effect with
    dependencies [[heroIndex, products]], if one of them changed.  A
    settled extraction sets the palette; a rejected one sets
    nothing. *)
Definition pageStep (e : pageEvent) (pg : Page) : Page :=
  match e with
  | OnView e =>
      let pg' := {| view := step e (view pg);
                    auroraColors := auroraColors pg;
                    extracting := extracting pg |} in
      if setsProducts e (view pg)
         || negb (same_number (currentIndex (hero (view pg)))
                              (currentIndex (hero (view pg'))))
      then updateAuroraColors pg'
      else pg'
  | ExtractionSettled k extractedColors =>
      match extracting pg !! k with
      | None => pg
      | Some _ =>
          {| view := view pg;
             auroraColors :=
               match extractedColors with
               | Some colors => enhanceColorsForAurora colors
               | None => auroraColors pg
               end;
             extracting := delete k (extracting pg) |}
      end
  end.

Definition pageRun (es : list pageEvent) (pg : Page) : Page :=
  foldl (fun pg e => pageStep e pg) pg es.

End Aurora.

Arguments OnView {Colors} e.
Arguments ExtractionSettled {Colors} k extractedColors.
Arguments pageStep {Colors} enhanceColorsForAurora e pg.
Arguments pageRun {Colors} enhanceColorsForAurora es pg.

(** The effect runs at mount, with no products. *)
Definition pageMount : Page :=
  updateAuroraColors
    {| view := mount; auroraColors := defaultColors; extracting := [] |}.

(** Some product has an image. *)
Definition has_image (l : list Product) : Prop :=
  exists p, p ∈ l /\ is_Some (imageOf p).

Definition page_inv (pg : Page) : Prop :=
  view_inv (view pg)
  /\ (forall url, url ∈ extracting pg ->
        exists p, p ∈ products (view pg) /\ imageOf p = Some url)
  /\ (auroraColors pg = defaultColors \/ has_image (products (view pg))).

(** * Properties *)

#[global] Instance pid_ge_trans : Transitive pid_ge.
Proof. unfold pid_ge. intros a b c Hab Hbc. lia. Qed.

(** *** The sort: sorted, a permutation, stable *)

Lemma sort_insert_perm a l : sort_insert by_pid_desc a l ≡ₚ a :: l.
Proof.
  induction l as [|b l IH]; simpl; [done|].
  destruct (by_pid_desc a b <=? 0); [done|].
  rewrite IH. apply Permutation_swap.
Qed.

Lemma sortedData_perm data : sortedData data ≡ₚ data.
Proof.
  induction data as [|a data IH]; [done|].
  unfold sortedData in *. simpl. rewrite sort_insert_perm. by f_equiv.
Qed.

Lemma sortedData_length data :
  length (sortedData data) = length data.
Proof. by rewrite (sortedData_perm data). Qed.

Lemma sort_insert_descending a l :
  descending l -> descending (sort_insert by_pid_desc a l).
Proof.
  unfold descending. induction l as [|b l IH]; simpl; intros Hl.
  - repeat constructor.
  - destruct (Z.leb_spec (by_pid_desc a b) 0) as [Hc|Hc];
      unfold by_pid_desc in Hc.
    + apply StronglySorted_cons in Hl as Hl'. destruct Hl' as [Hb _].
      constructor; [done|]. constructor; [unfold pid_ge; lia|].
      eapply Forall_impl; [exact Hb|]. unfold pid_ge. intros c Hbc. lia.
    + apply StronglySorted_cons in Hl as [Hb Hl].
      constructor; [by apply IH|].
      apply Forall_forall. intros c Hc'.
      rewrite sort_insert_perm in Hc'.
      apply elem_of_cons in Hc' as [->|Hc'].
      * unfold pid_ge. lia.
      * rewrite Forall_forall in Hb. by apply Hb.
Qed.

Lemma sortedData_descending data : descending (sortedData data).
Proof.
  induction data as [|a data IH]; [constructor|].
  unfold sortedData in *. simpl. by apply sort_insert_descending.
Qed.

Lemma sort_insert_stable k a l :
  filter (same_pid k) (sort_insert by_pid_desc a l)
  = filter (same_pid k) (a :: l).
Proof.
  induction l as [|b l IH]; simpl; [done|].
  destruct (Z.leb_spec (by_pid_desc a b) 0) as [Hc|Hc]; [done|].
  unfold by_pid_desc in Hc.
  rewrite (filter_cons _ b), IH, !filter_cons.
  repeat case_decide; unfold same_pid in *; try done; lia.
Qed.

(** Products with equal identifiers keep the order they arrived in. *)
Lemma sortedData_stable k data :
  filter (same_pid k) (sortedData data) = filter (same_pid k) data.
Proof.
  induction data as [|a data IH]; [done|].
  unfold sortedData in *. simpl.
  rewrite sort_insert_stable, !filter_cons, IH. done.
Qed.

Lemma descending_take n l : descending l -> descending (take n l).
Proof.
  unfold descending. intros Hl.
  rewrite <- (take_drop n l) in Hl. by apply StronglySorted_app_1_l in Hl.
Qed.

Lemma descending_drop n l : descending l -> descending (drop n l).
Proof.
  unfold descending. intros Hl.
  rewrite <- (take_drop n l) in Hl. by apply StronglySorted_app_1_r in Hl.
Qed.

Lemma descending_slice s e l : descending l -> descending (slice s e l).
Proof. intros Hl. by apply descending_take, descending_drop. Qed.

(** Two descending lists that agree on the products of each identifier,
    in order, are equal: the result of a stable sort does not depend on
    the algorithm behind it. *)
Lemma descending_stable_unique l1 l2 :
  descending l1 -> descending l2 ->
  (forall k, filter (same_pid k) l1 = filter (same_pid k) l2) ->
  l1 = l2.
Proof.
  unfold descending. intros H1. revert l2.
  induction H1 as [|a l1 H1 IH Ha]; intros l2 H2 Hf.
  - destruct l2 as [|b l2]; [done|].
    specialize (Hf (pid b)). rewrite filter_cons_True in Hf by done. done.
  - destruct H2 as [|b l2 H2 Hb].
    { specialize (Hf (pid a)). rewrite filter_cons_True in Hf by done. done. }
    assert (pid a = pid b) as Hab.
    { rewrite Forall_forall in Ha, Hb.
      assert (a ∈ b :: l2) as Ha2.
      { eapply (list_elem_of_filter (same_pid (pid a))).
        rewrite <- Hf, filter_cons_True by done. left. }
      assert (b ∈ a :: l1) as Hb1.
      { eapply (list_elem_of_filter (same_pid (pid b))).
        rewrite Hf, filter_cons_True by done. left. }
      apply elem_of_cons in Ha2 as [->|Ha2]; [done|].
      apply elem_of_cons in Hb1 as [->|Hb1]; [done|].
      apply Ha in Hb1. apply Hb in Ha2. unfold pid_ge in *. lia. }
    assert (a = b) as ->.
    { specialize (Hf (pid a)).
      rewrite !filter_cons_True in Hf by done. congruence. }
    f_equal. apply IH; [done|]. intros k. specialize (Hf k).
    rewrite !filter_cons in Hf. case_decide; congruence.
Qed.

(** When product identifiers are distinct, the order in which the
    service lists the products makes no difference. *)
Lemma sortedData_source_order data1 data2 :
  NoDup (pid <$> data1) -> data1 ≡ₚ data2 ->
  sortedData data1 = sortedData data2.
Proof.
  intros Hnd Hp.
  apply (StronglySorted_unique_strong pid_ge);
    [|apply sortedData_descending..|by rewrite !sortedData_perm].
  intros a b Ha Hb Hab Hba.
  rewrite sortedData_perm in Ha. rewrite sortedData_perm, <- Hp in Hb.
  apply list_elem_of_lookup in Ha as [i Hi], Hb as [j Hj].
  assert (i = j) as ->.
  { apply (NoDup_lookup (pid <$> data1) i j (pid a)); [done|..];
      rewrite list_lookup_fmap.
    - by rewrite Hi.
    - rewrite Hj. simpl. f_equal. unfold pid_ge in *. lia. }
  congruence.
Qed.

(** *** Slices and pages *)

Lemma slice_take n l : slice 0 n l = take n l.
Proof. unfold slice. by rewrite drop_0, Nat.sub_0_r. Qed.

Lemma pageData_window page data :
  pageData page data
  = take pageSize (drop (page * pageSize) (sortedData data)).
Proof.
  unfold pageData, slice. f_equal. lia.
Qed.

Lemma pageData_length page data :
  length (pageData page data)
  = (pageSize `min` (length data - page * pageSize))%nat.
Proof.
  by rewrite pageData_window, length_take, length_drop, sortedData_length.
Qed.

Lemma pageData_descending page data : descending (pageData page data).
Proof. apply descending_slice, sortedData_descending. Qed.

Lemma pageCount_bounds size :
  (size <= pageCount size * pageSize < size + pageSize)%nat.
Proof.
  unfold pageCount, pageSize. change (12 - 1)%nat with 11%nat.
  pose proof (Nat.div_mod_eq (size + 11) 12).
  pose proof (Nat.mod_upper_bound (size + 11) 12). lia.
Qed.

(** *** The paginator *)

Lemma loadMoreFeedProducts_skips f :
  feedLoading f = true \/ feedHasMore f = false ->
  loadMoreFeedProducts f = f.
Proof.
  unfold loadMoreFeedProducts. by intros [-> | ->]; rewrite ?orb_true_r.
Qed.

Lemma feedSettled_idle o f : feedAwaiting f = [] -> feedSettled o f = f.
Proof. unfold feedSettled. by intros ->. Qed.

Lemma fetchFeed_exhausted o f :
  feedHasMore f = false -> feedAwaiting f = [] -> fetchFeed o f = f.
Proof.
  intros Hm Ha. unfold fetchFeed.
  rewrite loadMoreFeedProducts_skips by auto. by apply feedSettled_idle.
Qed.

(** A whole call from an idle feed is the settled half applied to the
    page the feed is at. *)
Lemma fetchFeed_idle o f :
  feedLoading f = false -> feedHasMore f = true -> feedAwaiting f = [] ->
  fetchFeed o f
  = loadMoreSettled (feedPage f) o
      {| feedProducts := feedProducts f; feedPage := feedPage f;
         feedLoading := true; feedHasMore := true; feedAwaiting := [];
         feedCalls := feedCalls f ++ [feedPage f] |}.
Proof.
  intros Hl Hm Ha. unfold fetchFeed, loadMoreFeedProducts, feedSettled.
  rewrite Hl, Hm, Ha. done.
Qed.

Lemma fetchedFeed_succ data n :
  fetchedFeed data (S n) = fetchFeed (Resolved data) (fetchedFeed data n).
Proof. done. Qed.

(** The feed after [n] calls, in closed form. *)
Lemma fetchedFeed_state data n :
  feedProducts (fetchedFeed data n) = take (n * pageSize) (sortedData data)
  /\ feedPage (fetchedFeed data n) = (n `min` pageCount (length data))%nat
  /\ (feedHasMore (fetchedFeed data n) = false
      <-> (1 <= n /\ length data <= n * pageSize)%nat)
  /\ feedLoading (fetchedFeed data n) = false
  /\ feedAwaiting (fetchedFeed data n) = [].
Proof.
  pose proof (pageCount_bounds (length data)) as Hc.
  induction n as [|n (Hp & Hg & Hm & Hl & Ha)].
  { simpl. rewrite take_0. repeat split; try done; lia. }
  rewrite fetchedFeed_succ.
  destruct (feedHasMore (fetchedFeed data n)) eqn:Hmore.
  - assert (n = 0 \/ n * pageSize < length data)%nat as Hn.
    { destruct (decide (n = 0%nat)); [by left|right].
      destruct (decide (n * pageSize < length data)%nat); [done|].
      assert (true = false); [apply Hm; lia|done]. }
    assert (feedPage (fetchedFeed data n) = n) as Hpage.
    { rewrite Hg. unfold pageSize in *. lia. }
    rewrite fetchFeed_idle by done. unfold loadMoreSettled.
    rewrite Hpage, pageData_length, sortedData_length.
    destruct (Nat.eqb_spec (pageSize `min` (length data - n * pageSize)) 0)
      as [Hz|Hz]; cbn [feedProducts feedPage feedHasMore feedLoading
                       feedAwaiting].
    + unfold pageSize in *.
      assert (n = 0%nat) as -> by lia. assert (length data = 0%nat) as Hd by lia.
      rewrite Hp. rewrite (nil_length_inv (sortedData data))
        by (by rewrite sortedData_length).
      rewrite !take_nil. repeat split; try done; lia.
    + rewrite Hp, pageData_window, take_take_drop.
      unfold pageSize in *.
      repeat split; try done; try (f_equal; lia); try lia.
      * destruct (Nat.leb_spec (length data) (n * 12 + 12)); [lia|done].
      * destruct (Nat.leb_spec (length data) (n * 12 + 12)); [done|lia].
  - destruct Hm as [Hm _]. specialize (Hm eq_refl).
    rewrite fetchFeed_exhausted by done.
    rewrite Hp, Hg, Hmore, Hl, Ha. unfold pageSize in *.
    repeat split; try done; try lia.
    rewrite !take_ge; [done|rewrite sortedData_length; lia..].
Qed.

Lemma loadMoreSettled_appends page data f :
  feedProducts (loadMoreSettled page (Resolved data) f)
  = feedProducts f ++ pageData page data.
Proof.
  unfold loadMoreSettled.
  destruct (Nat.eqb_spec (length (pageData page data)) 0) as [Hz|Hz]; simpl.
  - by rewrite (nil_length_inv _ Hz), app_nil_r.
  - done.
Qed.

(** *** The carousel *)

Lemma goToNext_busy totalSlides c :
  isTransitioning c = true -> goToNext totalSlides c = c.
Proof. unfold goToNext. by intros ->. Qed.

Lemma goToPrev_busy totalSlides c :
  isTransitioning c = true -> goToPrev totalSlides c = c.
Proof. unfold goToPrev. by intros ->. Qed.

Lemma goToSlide_busy index c :
  isTransitioning c = true -> goToSlide index c = c.
Proof. unfold goToSlide. by intros ->. Qed.

Lemma goToSlide_current index c :
  currentIndex c = Int index -> goToSlide index c = c.
Proof.
  unfold goToSlide, num_is. intros ->.
  by rewrite Z.eqb_refl, orb_true_r.
Qed.

(** The interval's callback does not look at the flag: when there is an
    interval, it always adds a transition. *)
Lemma intervalElapsed_adds totalSlides c :
  timer c = Some totalSlides ->
  timeouts (intervalElapsed c) = timeouts c ++ [NextSlide totalSlides]
  /\ intervalElapsed c <> c.
Proof.
  unfold intervalElapsed. intros ->. split; [done|].
  intros E. apply (f_equal (fun c => length (timeouts c))) in E.
  simpl in E. rewrite length_app in E. simpl in E. lia.
Qed.

Lemma autoRotate_few totalSlides c :
  totalSlides <= 1 -> timer (autoRotate totalSlides c) = None.
Proof.
  intros H. simpl. destruct (Z.leb_spec totalSlides 1); [done|lia].
Qed.

Lemma intervalElapsed_no_timer c : timer c = None -> intervalElapsed c = c.
Proof. unfold intervalElapsed. by intros ->. Qed.

Lemma autoRotate_useCarousel n m : autoRotate n (useCarousel m) = useCarousel n.
Proof. done. Qed.

(** Without slides the arrows are not guarded the way the interval is:
    the remainder is taken by zero. *)
Lemma arrows_without_slides c :
  isTransitioning c = false -> timeouts c = [] ->
  currentIndex (timeoutElapsed (goToNext 0 c)) = NaN
  /\ currentIndex (timeoutElapsed (goToPrev 0 c)) = NaN.
Proof.
  intros Hb Hq. unfold goToNext, goToPrev, timeoutElapsed, beginTransition.
  rewrite Hb, Hq. simpl. by destruct (currentIndex c).
Qed.

Lemma next_index_below n a :
  1 <= n -> index_below n a -> index_below n (setCurrentIndex (NextSlide n) a).
Proof.
  intros Hn (i & -> & Hi). simpl.
  destruct (Z.eqb_spec n 0); [lia|].
  exists (Z.rem (i + 1) n). split; [done|].
  rewrite Z.rem_mod_nonneg by lia. apply Z.mod_pos_bound. lia.
Qed.

Lemma prev_index_below n a :
  1 <= n -> index_below n a -> index_below n (setCurrentIndex (PrevSlide n) a).
Proof.
  intros Hn (i & -> & Hi). simpl.
  destruct (Z.eqb_spec n 0); [lia|].
  exists (Z.rem (i + -1 + n) n). split; [done|].
  rewrite Z.rem_mod_nonneg by lia. apply Z.mod_pos_bound. lia.
Qed.

Lemma timeout_index_below n t a :
  1 <= n -> set_for n t -> index_below n a ->
  index_below n (setCurrentIndex t a).
Proof.
  intros Hn Ht Ha. destruct t as [m|m|i]; simpl in Ht; subst.
  - by apply next_index_below.
  - by apply prev_index_below.
  - by exists i.
Qed.

(** *** The component *)

Lemma heroSlides_nonneg l : 0 <= heroSlides l.
Proof. unfold heroSlides. lia. Qed.

Lemma heroSlides_take l : Z.of_nat (length (take 5 l)) = heroSlides l.
Proof. unfold heroSlides. rewrite length_take. lia. Qed.

Lemma hero_inv_mount : hero_inv mount.
Proof. repeat split; try done; simpl; lia. Qed.

Lemma hero_inv_begin t v :
  1 <= heroSlides (products v) -> set_for (heroSlides (products v)) t ->
  hero_inv v -> hero_inv (withHero (beginTransition t) v).
Proof.
  intros Hn Ht (Hp & Ht' & H0 & H1).
  split; [done|]. split; [done|]. split; [simpl; lia|].
  intros _. destruct (H1 Hn) as [Hi Hf]. split; [done|]. simpl.
  apply Forall_app. split; [done|]. by constructor.
Qed.

Lemma withHero_keep g v : g (hero v) = hero v -> withHero g v = v.
Proof. destruct v. unfold withHero. simpl. by intros ->. Qed.

Lemma withHero_ext g h v :
  g (hero v) = h (hero v) -> withHero g v = withHero h v.
Proof. unfold withHero. by intros ->. Qed.

Lemma hero_inv_timeout v : hero_inv v -> hero_inv (withHero timeoutElapsed v).
Proof.
  intros Hv. pose proof Hv as (Hp & Ht & H0 & H1).
  destruct (timeouts (hero v)) as [|t rest] eqn:Hq.
  { rewrite withHero_keep; [done|]. unfold timeoutElapsed. by rewrite Hq. }
  unfold hero_inv, withHero, timeoutElapsed. rewrite Hq. simpl.
  split; [done|]. split; [done|]. split.
  - intros Hz. by destruct (H0 Hz) as [_ ?].
  - intros Hn. destruct (H1 Hn) as [Hi Hf].
    apply Forall_cons in Hf as [Hf Hrest].
    split; [by apply timeout_index_below|done].
Qed.

Lemma hero_inv_step e v :
  with_slides v e -> hero_inv v -> hero_inv (step e v).
Proof.
  intros He Hv. pose proof Hv as (Hp & Ht & H0 & H1).
  pose proof (heroSlides_nonneg (products v)) as Hnn.
  destruct e as [| | | |index|o|o|b]; simpl in He |- *.
  - (* the interval *)
    destruct (Z.leb_spec (heroSlides (products v)) 1) as [Hle|Hgt].
    + rewrite withHero_keep; [done|]. by apply intervalElapsed_no_timer.
    + rewrite (withHero_ext _
        (beginTransition (NextSlide (heroSlides (products v))))).
      * apply hero_inv_begin; [lia|done|done].
      * unfold intervalElapsed. by rewrite Ht.
  - (* a timeout *)
    by apply hero_inv_timeout.
  - (* the next arrow *)
    destruct (isTransitioning (hero v)) eqn:Hb.
    + rewrite withHero_keep; [done|]. by apply goToNext_busy.
    + rewrite (withHero_ext _
        (beginTransition (NextSlide (heroSlides (products v))))).
      * by apply hero_inv_begin.
      * unfold goToNext. by rewrite Hb.
  - (* the previous arrow *)
    destruct (isTransitioning (hero v)) eqn:Hb.
    + rewrite withHero_keep; [done|]. by apply goToPrev_busy.
    + rewrite (withHero_ext _
        (beginTransition (PrevSlide (heroSlides (products v))))).
      * by apply hero_inv_begin.
      * unfold goToPrev. by rewrite Hb.
  - (* an indicator *)
    destruct (Z.ltb_spec 1 (heroSlides (products v))) as [Hgt|Hle];
      [|done]. simpl.
    destruct (Nat.ltb_spec index (length (take 5 (products v))))
      as [Hlt|Hge]; [|done].
    destruct (isTransitioning (hero v)
              || num_is (Z.of_nat index) (currentIndex (hero v))) eqn:Hb.
    + rewrite withHero_keep; [done|]. unfold goToSlide. by rewrite Hb.
    + rewrite (withHero_ext _ (beginTransition (ThisSlide (Z.of_nat index)))).
      * apply hero_inv_begin; [lia| |done]. simpl.
        rewrite <- heroSlides_take. lia.
      * unfold goToSlide. by rewrite Hb.
  - (* the hero products arrive, or fail to *)
    destruct (productsAwaiting v) eqn:Hw; [|done].
    specialize (Hp eq_refl).
    assert (heroSlides (products v) = 0) as Hz by (by rewrite Hp).
    destruct (H0 Hz) as [Hi Hq].
    destruct o as [data|].
    + unfold hero_inv. simpl. split; [done|]. split; [done|].
      split; [done|]. intros Hn. split.
      * rewrite Hi. exists 0. split; [done|lia].
      * rewrite Hq. constructor.
    + unfold hero_inv. simpl. split; [done|]. split; [done|].
      split; [done|]. lia.
  - done.
  - done.
Qed.

Lemma reachable_with_slides_inv v : reachable_with_slides v -> hero_inv v.
Proof.
  induction 1 as [|e v Hr IH He]; [apply hero_inv_mount|].
  by apply hero_inv_step.
Qed.

Lemma reachable_with_slides_reachable v :
  reachable_with_slides v -> reachable v.
Proof. induction 1; by constructor. Qed.

Lemma run_snoc es e v : run (es ++ [e]) v = step e (run es v).
Proof. unfold run. by rewrite foldl_app. Qed.

Lemma reachable_run es : reachable (run es mount).
Proof.
  induction es as [|e es IH] using rev_ind; [constructor|].
  rewrite run_snoc. by constructor.
Qed.

Lemma carousel_event_products e v :
  carousel_event e -> products (step e v) = products v.
Proof.
  destruct e as [| | | |index|o|o|b]; simpl; try done.
  intros _. by destruct (_ && _).
Qed.

(** While a transition is in progress the arrows and the indicators
    do nothing. *)
Lemma clicks_rejected_while_transitioning v :
  isTransitioning (hero v) = true ->
  step ClickNext v = v /\ step ClickPrev v = v
  /\ forall index, step (ClickIndicator index) v = v.
Proof.
  intros Hb. simpl. split; [|split].
  - apply withHero_keep. by apply goToNext_busy.
  - apply withHero_keep. by apply goToPrev_busy.
  - intros index. destruct (_ && _); [|done].
    apply withHero_keep. by apply goToSlide_busy.
Qed.

(** With at most one slide there is no interval, and as long as no
    arrow is clicked on an empty carousel the index stays 0. *)
Lemma few_slides_stay_first v :
  reachable_with_slides v -> heroSlides (products v) <= 1 ->
  timer (hero v) = None
  /\ step IntervalElapsed v = v
  /\ currentIndex (hero v) = Int 0.
Proof.
  intros Hr Hle. apply reachable_with_slides_inv in Hr as (_ & Ht & H0 & H1).
  pose proof (heroSlides_nonneg (products v)) as Hnn.
  assert (timer (hero v) = None) as Hnone.
  { rewrite Ht. destruct (Z.leb_spec (heroSlides (products v)) 1); [done|lia]. }
  split; [done|]. split.
  { simpl. apply withHero_keep. by apply intervalElapsed_no_timer. }
  destruct (decide (heroSlides (products v) = 0)) as [Hz|Hz].
  - by apply H0.
  - destruct H1 as [(i & -> & Hi) _]; [lia|]. f_equal. lia.
Qed.

Lemma autoAdvance_round n k :
  1 < n -> 0 <= k ->
  autoAdvance {| currentIndex := Int k; isTransitioning := false;
                 timeouts := []; timer := Some n |}
  = {| currentIndex := Int ((k + 1) mod n); isTransitioning := false;
       timeouts := []; timer := Some n |}.
Proof.
  intros Hn Hk. unfold autoAdvance, intervalElapsed, timeoutElapsed. simpl.
  destruct (Z.eqb_spec n 0); [lia|].
  by rewrite Z.rem_mod_nonneg by lia.
Qed.

Lemma autoAdvance_iter n (N : nat) :
  1 < n ->
  Nat.iter N autoAdvance (useCarousel n)
  = {| currentIndex := Int (Z.of_nat N mod n); isTransitioning := false;
       timeouts := []; timer := Some n |}.
Proof.
  intros Hn. induction N as [|N IH].
  - unfold useCarousel, autoRotate. cbn [Nat.iter currentIndex
      isTransitioning timeouts]. change (Z.of_nat 0) with 0.
    destruct (Z.leb_spec n 1); [lia|]. by rewrite Z.mod_0_l by lia.
  - rewrite Nat.iter_succ, IH, autoAdvance_round;
      [|done|apply Z.mod_pos_bound; lia].
    f_equal. f_equal. rewrite Z.add_mod_idemp_l by lia. f_equal. lia.
Qed.

(** The record of calls only grows, and only an observation of the
    sentinel in the viewport can add to it. *)
Lemma feedCalls_step e v :
  exists more, feedCalls (feed (step e v)) = feedCalls (feed v) ++ more
  /\ (out_of_view e -> more = []).
Proof.
  assert (forall o f, feedCalls (feedSettled o f) = feedCalls f) as Hs.
  { intros o f. unfold feedSettled. destruct (feedAwaiting f); [done|].
    destruct o as [data|]; simpl; [|done]. by destruct (_ =? _)%nat. }
  assert (forall f, exists more,
            feedCalls (loadMoreFeedProducts f) = feedCalls f ++ more) as Hl.
  { intros f. unfold loadMoreFeedProducts. destruct (_ || _).
    - exists []. by rewrite app_nil_r.
    - by eexists. }
  assert (forall v', feed v' = feed v ->
            exists more, feedCalls (feed v') = feedCalls (feed v) ++ more
                         /\ (out_of_view e -> more = [])) as Hsame.
  { intros v' ->. exists []. by rewrite app_nil_r. }
  destruct e as [| | | |index|o|o|b]; simpl; try by apply Hsame.
  - destruct (_ && _); by apply Hsame.
  - destruct (productsAwaiting v); [|by apply Hsame].
    destruct o; by apply Hsame.
  - exists []. by rewrite Hs, app_nil_r.
  - unfold sentinelObserved. destruct b; simpl.
    + destruct (_ && _).
      * destruct (Hl (feed v)) as [more Hm]. exists more. split; [done|].
        intros Ho. by destruct Ho.
      * exists []. by rewrite app_nil_r.
    + exists []. by rewrite app_nil_r.
Qed.

Lemma feedCalls_run es v :
  exists more, feedCalls (feed (run es v)) = feedCalls (feed v) ++ more
  /\ (Forall out_of_view es -> more = []).
Proof.
  induction es as [|e es (more & Hm & Hnone)] using rev_ind.
  { exists []. by rewrite app_nil_r. }
  rewrite run_snoc.
  destruct (feedCalls_step e (run es v)) as (more' & Hm' & Hnone').
  exists (more ++ more'). rewrite Hm', Hm, app_assoc. split; [done|].
  intros Hf. apply Forall_app in Hf as [Hes He].
  apply Forall_cons in He as [He _].
  by rewrite Hnone, Hnone'.
Qed.

(** The component and its parts: the carousel after the products
    arrive is the hook rendered afresh with the new slide count, and
    the feed after the mount-time call resolves is the feed after one
    whole call. *)
Lemma hero_after_products data :
  hero (step (ProductsSettled (Resolved data)) mount)
  = useCarousel (heroSlides (slice 0 8 (sortedData data))).
Proof. done. Qed.

Lemma feed_after_mount o :
  feed (step (FeedSettled o) mount) = fetchFeed o newFeed.
Proof. done. Qed.

(** What is cut out of the sorted array is made of products of the
    collection. *)
Lemma window_from_data n l data :
  take n (drop l (sortedData data)) ⊆ data.
Proof.
  intros p Hp. rewrite <- (sortedData_perm data).
  by apply (sublist_subseteq _ _ (sublist_drop _ l)),
           (sublist_subseteq _ _ (sublist_take _ n)).
Qed.

Lemma first_from_data n data : take n (sortedData data) ⊆ data.
Proof. apply (window_from_data n 0 data). Qed.

(** The first [n] of the sorted array have the greatest identifiers. *)
Lemma first_are_greatest n data p q :
  p ∈ take n (sortedData data) -> q ∈ data ->
  q ∉ take n (sortedData data) -> pid q <= pid p.
Proof.
  intros Hp Hq Hout.
  pose proof (sortedData_descending data) as Hd. unfold descending in Hd.
  rewrite <- (take_drop n (sortedData data)) in Hd.
  rewrite <- (sortedData_perm data), <- (take_drop n (sortedData data)) in Hq.
  apply elem_of_app in Hq as [Hq|Hq]; [done|].
  apply (StronglySorted_app_1_elem_of pid_ge _ _ p q Hd Hp Hq).
Qed.

(** * The properties of the specification *)

(** C1, as stated, fails for the empty collection before any call:
    the accumulated length, 0, already equals M, yet the has-more flag
    is true and the next call is not a no-op, since it is the call that
    finds the page empty and sets the flag to false. *)
Lemma C1_empty_collection_before_first_call :
  length (feedProducts (fetchedFeed [] 0)) = length (@nil Product)
  /\ feedHasMore (fetchedFeed [] 0) = true
  /\ fetchFeed (Resolved []) (fetchedFeed [] 0) <> fetchedFeed [] 0
  /\ feedProducts (fetchFeed (Resolved []) (fetchedFeed [] 0)) = []
  /\ feedPage (fetchFeed (Resolved []) (fetchedFeed [] 0)) = 0%nat
  /\ feedHasMore (fetchFeed (Resolved []) (fetchedFeed [] 0)) = false.
Proof. repeat split; by vm_compute. Qed.

(** C1, amended.  For a fixed collection [data] of size M and page
    size 12, sorting gives a rearrangement of the collection in
    descending order of identifier, and the feed after [n] successive
    calls of the fetch operation holds the first [n] 12-item windows of
    it: position [i] of the feed is position [i] of the sorted
    collection.  While the feed is shorter than M, the page counter
    equals the number of calls made and the next call appends the next
    window, which is not empty, and advances the counter by one.  The
    has-more flag is false exactly when at least one call has been made
    and the feed has length M; that happens after finitely many calls,
    and from then on a call changes nothing.  (For the empty collection
    the first call is the one that sets the flag.) *)
Theorem C1_feed_pagination (data : list Product) (n : nat) :
  let sorted := sortedData data in
  let f := fetchedFeed data n in
  let next := slice (n * pageSize) (n * pageSize + pageSize) sorted in
  sorted ≡ₚ data
  /\ descending sorted
  /\ feedProducts f = take (n * pageSize) sorted
  /\ (forall i, (i < length (feedProducts f))%nat ->
        feedProducts f !! i = sorted !! i)
  /\ ((length (feedProducts f) < length data)%nat ->
        feedPage f = n
        /\ next <> []
        /\ feedProducts (fetchFeed (Resolved data) f) = feedProducts f ++ next
        /\ feedPage (fetchFeed (Resolved data) f) = S (feedPage f))
  /\ (feedHasMore f = false
      <-> (1 <= n)%nat /\ length (feedProducts f) = length data)
  /\ (feedHasMore f = false -> forall o, fetchFeed o f = f)
  /\ feedHasMore (fetchedFeed data (1 `max` pageCount (length data))) = false.
Proof.
  intros sorted f next.
  destruct (fetchedFeed_state data n) as (Hp & Hg & Hm & Hl & Ha).
  fold f in Hp, Hg, Hm, Hl, Ha. fold sorted in Hp.
  assert (length (feedProducts f)
          = (n * pageSize) `min` length data)%nat as Hlen.
  { rewrite Hp, length_take. unfold sorted. by rewrite sortedData_length. }
  pose proof (pageCount_bounds (length data)) as Hc.
  split; [apply sortedData_perm|]. split; [apply sortedData_descending|].
  split; [done|]. split.
  { intros i Hi. rewrite Hp. apply lookup_take_lt. lia. }
  split.
  { intros Hshort.
    assert (n * pageSize < length data)%nat as Hn by lia.
    assert (feedHasMore f = true) as Hmore.
    { destruct (feedHasMore f); [done|]. destruct Hm as [Hm _].
      specialize (Hm eq_refl). lia. }
    assert (feedPage f = n) as Hpage by (unfold pageSize in *; lia).
    assert (next = pageData n data) as Hnext by done.
    assert (next <> []) as Hne.
    { intros E. apply (f_equal length) in E.
      rewrite Hnext, pageData_length in E. unfold pageSize in *.
      change (length []) with 0%nat in E. lia. }
    repeat split; [done..| |].
    - rewrite fetchFeed_idle by done.
      rewrite loadMoreSettled_appends, Hpage. done.
    - rewrite fetchFeed_idle by done. unfold loadMoreSettled.
      rewrite Hpage, <- Hnext.
      destruct (Nat.eqb_spec (length next) 0) as [Hz|Hz]; [|simpl; lia].
      by apply nil_length_inv in Hz. }
  split.
  { rewrite Hm. unfold pageSize in *. lia. }
  split.
  { intros Hmore o. by apply fetchFeed_exhausted. }
  destruct (fetchedFeed_state data (1 `max` pageCount (length data)))
    as (_ & _ & Hm' & _).
  apply Hm'. unfold pageSize in *. lia.
Qed.

(** C2, as stated, fails in the state the component is mounted in:
    there are no products, so no slide is displayed, and the index 0
    is not below the slide count 0. *)
Lemma C2_no_slide_at_mount :
  reachable mount
  /\ heroSlides (products mount) = 0
  /\ currentIndex (hero mount) = Int 0
  /\ ~ index_below (heroSlides (products mount)) (currentIndex (hero mount)).
Proof.
  split; [constructor|]. split; [done|]. split; [done|].
  change (heroSlides (products mount)) with 0.
  intros (i & _ & Hlt). lia.
Qed.

(** C2, amended.  In every state in which at least one slide is
    displayed, reached without an arrow click on an empty carousel, the
    index is an integer from 0 up to, not including, the slide count,
    the minimum of the product count and 5; and it still is after any
    carousel operation: the interval or a timeout coming due, go next,
    go previous, or go to the index of an indicator. *)
Theorem C2_index_below_slides (v : View) :
  reachable_with_slides v -> 1 <= heroSlides (products v) ->
  heroSlides (products v) = Z.min (Z.of_nat (length (products v))) 5
  /\ index_below (heroSlides (products v)) (currentIndex (hero v))
  /\ forall e, carousel_event e ->
       heroSlides (products (step e v)) = heroSlides (products v)
       /\ index_below (heroSlides (products v)) (currentIndex (hero (step e v))).
Proof.
  intros Hr Hn. split; [done|]. split.
  { by apply (reachable_with_slides_inv v Hr). }
  intros e He. rewrite <- (carousel_event_products e v He). split; [done|].
  assert (reachable_with_slides (step e v)) as Hr'.
  { apply with_slides_step; [done|]. by destruct e. }
  apply (reachable_with_slides_inv _ Hr').
  by rewrite (carousel_event_products e v He).
Qed.

(** C3.  With five slides and a go-next transition in progress, a
    second go next, a go previous and a go to index change nothing, but
    the interval coming due queues a second transition; once both have
    completed the index has moved from 0 to 2. *)
Theorem C3_interval_during_transition :
  let v := run [ProductsSettled (Resolved five); ClickNext] mount in
  isTransitioning (hero v) = true
  /\ step ClickNext v = v
  /\ step ClickPrev v = v
  /\ step (ClickIndicator 3) v = v
  /\ step IntervalElapsed v <> v
  /\ timeouts (hero (step IntervalElapsed v)) = [NextSlide 5; NextSlide 5]
  /\ currentIndex (hero v) = Int 0
  /\ currentIndex
       (hero (run [IntervalElapsed; TimeoutElapsed; TimeoutElapsed] v))
     = Int 2.
Proof.
  intros v. repeat split; by vm_compute.
Qed.

(** C4. A feed fetch invoked while the loading flag is true or the
    has-more flag is false returns the feed state it was given: the
    accumulated list, the page counter and both flags are unchanged,
    and no call to the product service is made. *)
Theorem C4_fetch_guard (f : Feed) :
  feedLoading f = true \/ feedHasMore f = false ->
  loadMoreFeedProducts f = f
  /\ feedProducts (loadMoreFeedProducts f) = feedProducts f
  /\ feedPage (loadMoreFeedProducts f) = feedPage f
  /\ feedLoading (loadMoreFeedProducts f) = feedLoading f
  /\ feedHasMore (loadMoreFeedProducts f) = feedHasMore f.
Proof.
  intros H. by rewrite loadMoreFeedProducts_skips.
Qed.

(** C5. A fetch made from an idle feed whose product call fails sets
    the loading flag while the call is outstanding and clears it when
    the failure arrives; the accumulated list, the page counter and the
    has-more flag are as before the call.  The feed is then again the
    idle feed it was, but for the record of the call, so a retry asks
    for the same page. *)
Theorem C5_fetch_failure (f : Feed) :
  feedLoading f = false -> feedHasMore f = true -> feedAwaiting f = [] ->
  let f' := fetchFeed Rejected f in
  feedLoading (loadMoreFeedProducts f) = true
  /\ feedLoading f' = false
  /\ feedProducts f' = feedProducts f
  /\ feedPage f' = feedPage f
  /\ feedHasMore f' = feedHasMore f
  /\ feedAwaiting f' = []
  /\ feedAwaiting (loadMoreFeedProducts f') = [feedPage f].
Proof.
  intros Hl Hm Ha f'. subst f'. rewrite fetchFeed_idle by done.
  unfold loadMoreFeedProducts. rewrite Hl, Hm. simpl. done.
Qed.

(** C6.  With at least one slide and no transition in progress, go
    next takes the index [i] to [(i + 1) mod slideCount] and go
    previous takes it to [(i - 1 + slideCount) mod slideCount], once
    the transition completes.  With more than one slide, the index
    after [N] auto-advances of a fresh carousel is [N mod slideCount]. *)
Theorem C6_index_wraps (slideCount i : Z) (c : Carousel) :
  1 <= slideCount -> 0 <= i ->
  currentIndex c = Int i -> isTransitioning c = false -> timeouts c = [] ->
  currentIndex (timeoutElapsed (goToNext slideCount c))
    = Int ((i + 1) mod slideCount)
  /\ currentIndex (timeoutElapsed (goToPrev slideCount c))
    = Int ((i - 1 + slideCount) mod slideCount)
  /\ (1 < slideCount -> forall N : nat,
        timer (useCarousel slideCount) = Some slideCount
        /\ currentIndex (Nat.iter N autoAdvance (useCarousel slideCount))
           = Int (Z.of_nat N mod slideCount)).
Proof.
  intros Hn Hi Hc Hb Hq.
  unfold goToNext, goToPrev, timeoutElapsed, beginTransition.
  rewrite Hb, Hq, Hc. simpl.
  destruct (Z.eqb_spec slideCount 0); [lia|].
  rewrite !Z.rem_mod_nonneg by lia.
  split; [done|]. split; [do 2 f_equal; lia|].
  intros Hgt N. rewrite autoAdvance_iter by done. split; [|done].
  simpl. destruct (Z.leb_spec slideCount 1); [lia|done].
Qed.

(** C7.  At mount no slide is displayed, no interval is set and the
    index is 0.  The next arrow is clicked and its timeout comes due:
    still no slide is displayed and no interval is set, but the index
    is [NaN], the remainder of 1 by 0; it is still [NaN] after the
    products have arrived and the carousel has auto-advanced. *)
Theorem C7_arrow_without_slides :
  let v := run [ClickNext; TimeoutElapsed] mount in
  heroSlides (products mount) = 0
  /\ currentIndex (hero mount) = Int 0
  /\ reachable v
  /\ heroSlides (products v) = 0
  /\ timer (hero v) = None
  /\ step IntervalElapsed v = v
  /\ currentIndex (hero v) = NaN
  /\ currentIndex
       (hero (run [ProductsSettled (Resolved five);
                   IntervalElapsed; TimeoutElapsed] v))
     = NaN.
Proof.
  intros v. repeat split; try by vm_compute.
  apply reachable_run.
Qed.

(** C8. Whatever order the product service lists the collection in,
    sorting rearranges it into descending order of identifier, losing
    and adding nothing.  The products stored for the hero and the hot
    list are the first 8 of that sorted array, and every page the
    paginator appends to the feed is a run of 12 consecutive positions
    of it; so both are products of the collection in descending order
    of identifier. *)
Theorem C8_descending_order (data : list Product) :
  sortedData data ≡ₚ data
  /\ descending (sortedData data)
  /\ (forall v,
        products (fetchProductsSettled (Resolved data) v)
        = take 8 (sortedData data)
        /\ descending (products (fetchProductsSettled (Resolved data) v))
        /\ products (fetchProductsSettled (Resolved data) v) ⊆ data)
  /\ (forall page f,
        feedProducts (loadMoreSettled page (Resolved data) f)
        = feedProducts f
          ++ take pageSize (drop (page * pageSize) (sortedData data))
        /\ descending
             (take pageSize (drop (page * pageSize) (sortedData data)))
        /\ take pageSize (drop (page * pageSize) (sortedData data)) ⊆ data).
Proof.
  split; [apply sortedData_perm|]. split; [apply sortedData_descending|].
  split.
  - intros v. simpl. rewrite slice_take. split; [done|]. split.
    + apply descending_take, sortedData_descending.
    + apply first_from_data.
  - intros page f. rewrite loadMoreSettled_appends, pageData_window.
    split; [done|]. split.
    + apply descending_take, descending_drop, sortedData_descending.
    + apply window_from_data.
Qed.

(** C9. After the initial fetch resolves with a collection of size M,
    the stored products are the first min(M, 8) of the collection
    sorted by identifier, descending, a rearrangement of the
    collection; so there are at most 8 of them, and no product of the
    collection that is left out has a greater identifier than one that
    is stored.  The slide count is the minimum of the stored length
    and 5. *)
Theorem C9_hot_list (data : list Product) (v : View) :
  let v' := fetchProductsSettled (Resolved data) v in
  sortedData data ≡ₚ data
  /\ descending (sortedData data)
  /\ products v' = take (length data `min` 8) (sortedData data)
  /\ length (products v') = (length data `min` 8)%nat
  /\ (length (products v') <= 8)%nat
  /\ (forall p q, p ∈ products v' -> q ∈ data -> q ∉ products v' ->
        pid q <= pid p)
  /\ heroSlides (products v') = Z.min (Z.of_nat (length (products v'))) 5
  /\ heroSlides (products v') = Z.of_nat (length data `min` 5).
Proof.
  simpl. rewrite slice_take.
  split; [apply sortedData_perm|]. split; [apply sortedData_descending|].
  assert (take 8 (sortedData data)
          = take (length data `min` 8) (sortedData data)) as Htake.
  { rewrite <- (sortedData_length data).
    rewrite Nat.min_comm, <- take_take.
    by rewrite (take_ge (sortedData data) (length (sortedData data))). }
  split; [done|].
  unfold heroSlides. rewrite length_take, sortedData_length.
  split; [lia|]. split; [lia|]. split; [|split; [done|lia]].
  intros p q Hp Hq Hout. by apply (first_are_greatest 8 data).
Qed.

(** C10.  Mounting the component calls the paginator once: in the
    mounted state the loading flag is set and one call to the product
    service is outstanding, made for page 0; nothing about the sentinel
    enters into it.  That call stays the first on record whatever
    happens next, and the only one for as long as the sentinel is not
    observed in the viewport; when it resolves, the first page is in
    the feed. *)
Theorem C10_first_page_at_mount :
  mount = withFeed loadMoreFeedProducts (fetchProducts firstRender)
  /\ feedCalls (feed firstRender) = []
  /\ feedCalls (feed mount) = [0%nat]
  /\ feedAwaiting (feed mount) = [0%nat]
  /\ feedLoading (feed mount) = true
  /\ (forall es, exists later,
        feedCalls (feed (run es mount)) = 0%nat :: later)
  /\ (forall es, Forall out_of_view es ->
        feedCalls (feed (run es mount)) = [0%nat])
  /\ (forall data,
        feedProducts (feed (step (FeedSettled (Resolved data)) mount))
        = pageData 0 data).
Proof.
  repeat split; try done.
  - intros es. destruct (feedCalls_run es mount) as (more & Hm & _).
    by exists more.
  - intros es Hes. destruct (feedCalls_run es mount) as (more & Hm & Hnone).
    by rewrite Hm, Hnone.
  - intros data.
    change (feed (step (FeedSettled (Resolved data)) mount))
      with (loadMoreSettled 0 (Resolved data)
              (feed (withFeed (fun f => mkFeed [] 0 true true [] [0%nat])
                       mount))).
    by rewrite loadMoreSettled_appends.
Qed.

(** * Concrete runs *)

(** Twenty products: the first call appends items 0 to 11, the second
    the remaining eight and marks the feed exhausted. *)
Example feed_of_twenty :
  let f1 := fetchedFeed twenty 1 in
  let f2 := fetchedFeed twenty 2 in
  pid <$> feedProducts f1 = [20; 19; 18; 17; 16; 15; 14; 13; 12; 11; 10; 9]
  /\ feedPage f1 = 1%nat /\ feedHasMore f1 = true
  /\ pid <$> feedProducts f2
     = [20; 19; 18; 17; 16; 15; 14; 13; 12; 11; 10; 9; 8; 7; 6; 5; 4; 3; 2; 1]
  /\ feedPage f2 = 2%nat /\ feedHasMore f2 = false
  /\ fetchedFeed twenty 3 = f2.
Proof. by vm_compute. Qed.

(** Exactly twelve products: one call appends them all and marks the
    feed exhausted. *)
Example feed_of_twelve :
  let f1 := fetchedFeed (take 12 twenty) 1 in
  length (feedProducts f1) = 12%nat
  /\ feedPage f1 = 1%nat /\ feedHasMore f1 = false.
Proof. by vm_compute. Qed.

(** No products: the first call finds the page empty, marks the feed
    exhausted and leaves the page counter at 0. *)
Example feed_of_none :
  feedHasMore (fetchedFeed [] 0) = true
  /\ feedHasMore (fetchedFeed [] 1) = false
  /\ feedPage (fetchedFeed [] 1) = 0%nat.
Proof. by vm_compute. Qed.

Lemma C1_feed_pagination_witness :
  (length (feedProducts (fetchedFeed twenty 1)) < length twenty)%nat
  /\ feedPage (fetchedFeed twenty 1) = 1%nat
  /\ feedProducts (fetchFeed (Resolved twenty) (fetchedFeed twenty 1))
     = feedProducts (fetchedFeed twenty 1) ++ slice 12 24 (sortedData twenty)
  /\ feedPage (fetchFeed (Resolved twenty) (fetchedFeed twenty 1))
     = S (feedPage (fetchedFeed twenty 1))
  /\ forall o, fetchFeed o (fetchedFeed twenty 2) = fetchedFeed twenty 2.
Proof.
  assert (length (feedProducts (fetchedFeed twenty 1)) < length twenty)%nat
    as Hshort by (vm_compute; lia).
  destruct (C1_feed_pagination twenty 1) as (_ & _ & _ & _ & Hnext & _).
  destruct (Hnext Hshort) as (Hpage & _ & Happ & Hadv).
  destruct (C1_feed_pagination twenty 2)
    as (_ & _ & _ & _ & _ & _ & Hstop & _).
  split; [exact Hshort|]. split; [exact Hpage|]. split; [exact Happ|].
  split; [exact Hadv|]. apply Hstop. reflexivity.
Defined.

Lemma C2_index_below_slides_witness :
  let v := run [ProductsSettled (Resolved five); ClickPrev; TimeoutElapsed]
             mount in
  reachable_with_slides v
  /\ 1 <= heroSlides (products v)
  /\ currentIndex (hero v) = Int 4
  /\ index_below (heroSlides (products v)) (currentIndex (hero v)).
Proof.
  intros v.
  assert (reachable_with_slides v) as Hr.
  { unfold v, run. cbn [foldl].
    apply with_slides_step; [|exact I].
    apply with_slides_step; [|vm_compute; discriminate].
    apply with_slides_step; [|exact I].
    apply with_slides_mount. }
  assert (1 <= heroSlides (products v)) as Hn by (vm_compute; discriminate).
  split; [exact Hr|]. split; [exact Hn|]. split; [reflexivity|].
  apply (C2_index_below_slides v Hr Hn).
Defined.

Lemma C4_fetch_guard_witness :
  feedLoading (feed mount) = true
  /\ loadMoreFeedProducts (feed mount) = feed mount.
Proof.
  split; [reflexivity|].
  apply (C4_fetch_guard (feed mount)). left. reflexivity.
Defined.

Lemma C5_fetch_failure_witness :
  feedLoading (fetchFeed Rejected newFeed) = false
  /\ feedProducts (fetchFeed Rejected newFeed) = []
  /\ feedPage (fetchFeed Rejected newFeed) = 0%nat
  /\ feedHasMore (fetchFeed Rejected newFeed) = true.
Proof.
  destruct (C5_fetch_failure newFeed eq_refl eq_refl eq_refl)
    as (_ & Hl & Hp & Hg & Hm & _).
  split; [exact Hl|]. split; [exact Hp|]. split; [exact Hg|exact Hm].
Defined.

Lemma C6_index_wraps_witness :
  let c := {| currentIndex := Int 4; isTransitioning := false;
              timeouts := []; timer := Some 5 |} in
  currentIndex (timeoutElapsed (goToNext 5 c)) = Int 0
  /\ currentIndex (timeoutElapsed (goToPrev 5 c)) = Int 3
  /\ currentIndex (Nat.iter 7 autoAdvance (useCarousel 5)) = Int 2.
Proof.
  intros c.
  assert (1 <= 5) as Hn by lia. assert (0 <= 4) as Hi by lia.
  assert (1 < 5) as Hgt by lia.
  destruct (C6_index_wraps 5 4 c Hn Hi eq_refl eq_refl eq_refl)
    as (Hnext & Hprev & Hauto).
  destruct (Hauto Hgt 7%nat) as [_ Hseven].
  split; [exact Hnext|]. split; [exact Hprev|exact Hseven].
Defined.

Lemma C10_first_page_at_mount_witness :
  let es := [SentinelObserved false; IntervalElapsed; FeedSettled Rejected] in
  Forall out_of_view es
  /\ feedCalls (feed (run es mount)) = [0%nat].
Proof.
  intros es.
  assert (Forall out_of_view es) as Hes.
  { repeat constructor; discriminate. }
  split; [exact Hes|].
  destruct C10_first_page_at_mount as (_ & _ & _ & _ & _ & _ & Honce & _).
  apply (Honce es Hes).
Defined.

(** * Further properties *)

(** *** Sorting and paging *)

Lemma sortedData_idempotent data : sortedData (sortedData data) = sortedData data.
Proof.
  apply descending_stable_unique; [apply sortedData_descending..|].
  intros k. apply sortedData_stable.
Qed.

Lemma pages_upto data n :
  mjoin ((fun page => pageData page data) <$> seq 0 n)
  = take (n * pageSize) (sortedData data).
Proof.
  induction n as [|n IH]; [by rewrite take_0|].
  rewrite seq_S, fmap_app, join_app, IH.
  change (mjoin ((fun page => pageData page data) <$> [(0 + n)%nat]))
    with (pageData n data ++ []).
  rewrite app_nil_r, pageData_window, take_take_drop. f_equal. lia.
Qed.

(** X1. Sorting the fetched collection loses and duplicates nothing:
    the sorted array is a rearrangement of what the service returned.
    Products with the same identifier stay in the order they arrived
    in, and sorting an array that is already sorted, as the second
    fetch path would a shared one, leaves it as it is. *)
Theorem X1_sort_keeps_products (data : list Product) :
  sortedData data ≡ₚ data
  /\ length (sortedData data) = length data
  /\ (forall k, filter (same_pid k) (sortedData data) = filter (same_pid k) data)
  /\ sortedData (sortedData data) = sortedData data.
Proof.
  split; [apply sortedData_perm|]. split; [apply sortedData_length|].
  split; [intros k; apply sortedData_stable|apply sortedData_idempotent].
Qed.

(** X2. When the identifiers in the collection are distinct, two
    responses listing the same products in different orders are sorted
    into the same array, so the hot list and the feed pages do not
    depend on the order the service answers in. *)
Theorem X2_sort_forgets_source_order (data1 data2 : list Product) :
  NoDup (pid <$> data1) -> data1 ≡ₚ data2 ->
  sortedData data1 = sortedData data2
  /\ (forall v, products (fetchProductsSettled (Resolved data1) v)
                = products (fetchProductsSettled (Resolved data2) v))
  /\ (forall page, pageData page data1 = pageData page data2).
Proof.
  intros Hnd Hp.
  pose proof (sortedData_source_order data1 data2 Hnd Hp) as Hs.
  split; [done|]. split.
  - intros v. simpl. by rewrite Hs.
  - intros page. unfold pageData. by rewrite Hs.
Qed.

(** X3. The pages cut out of a collection, put one after the other,
    are the sorted collection: every product is on exactly one page.
    There are [pageCount] of them, none empty; all but the last hold 12
    products, and any page after the last is empty. *)
Theorem X3_pages_partition (data : list Product) :
  mjoin (pages data) = sortedData data
  /\ length (pages data) = pageCount (length data)
  /\ Forall (fun page => page <> []) (pages data)
  /\ (forall page, (S page < pageCount (length data))%nat ->
        length (pageData page data) = pageSize)
  /\ (forall page, (pageCount (length data) <= page)%nat ->
        pageData page data = []).
Proof.
  pose proof (pageCount_bounds (length data)) as Hc.
  split.
  { unfold pages. rewrite pages_upto, take_ge; [done|].
    rewrite sortedData_length. lia. }
  split.
  { unfold pages. by rewrite length_fmap, length_seq. }
  split.
  { unfold pages. apply Forall_fmap, Forall_forall. intros page Hin.
    apply elem_of_seq in Hin. simpl. intros E.
    apply (f_equal length) in E. rewrite pageData_length in E.
    unfold pageSize in *. change (length []) with 0%nat in E. lia. }
  split.
  { intros page Hp. rewrite pageData_length. unfold pageSize in *. lia. }
  intros page Hp. apply nil_length_inv. rewrite pageData_length.
  unfold pageSize in *. lia.
Qed.

(** *** Whole carousel operations *)

Lemma idle_carousel c a :
  currentIndex c = a -> isTransitioning c = false -> timeouts c = [] ->
  c = {| currentIndex := a; isTransitioning := false;
         timeouts := []; timer := timer c |}.
Proof. destruct c. simpl. by intros -> -> ->. Qed.

Lemma nextSlide_idle n i t :
  1 <= n -> 0 <= i ->
  nextSlide n {| currentIndex := Int i; isTransitioning := false;
                 timeouts := []; timer := t |}
  = {| currentIndex := Int ((i + 1) mod n); isTransitioning := false;
       timeouts := []; timer := t |}.
Proof.
  intros Hn Hi. unfold nextSlide, goToNext, timeoutElapsed. simpl.
  destruct (Z.eqb_spec n 0); [lia|]. by rewrite Z.rem_mod_nonneg by lia.
Qed.

Lemma prevSlide_idle n i t :
  1 <= n -> 0 <= i ->
  prevSlide n {| currentIndex := Int i; isTransitioning := false;
                 timeouts := []; timer := t |}
  = {| currentIndex := Int ((i - 1) mod n); isTransitioning := false;
       timeouts := []; timer := t |}.
Proof.
  intros Hn Hi. unfold prevSlide, goToPrev, timeoutElapsed. simpl.
  destruct (Z.eqb_spec n 0); [lia|]. rewrite Z.rem_mod_nonneg by lia.
  do 2 f_equal. replace (i + -1 + n) with (i - 1 + 1 * n) by lia.
  by rewrite Z.mod_add by lia.
Qed.

Lemma nextSlide_iter n i t (k : nat) :
  1 <= n -> 0 <= i < n ->
  Nat.iter k (nextSlide n)
    {| currentIndex := Int i; isTransitioning := false;
       timeouts := []; timer := t |}
  = {| currentIndex := Int ((i + Z.of_nat k) mod n); isTransitioning := false;
       timeouts := []; timer := t |}.
Proof.
  intros Hn Hi. induction k as [|k IH].
  - simpl. by rewrite Z.add_0_r, Z.mod_small by lia.
  - rewrite Nat.iter_succ, IH, nextSlide_idle;
      [|done|apply Z.mod_pos_bound; lia].
    do 2 f_equal. rewrite Z.add_mod_idemp_l by lia. f_equal. lia.
Qed.

Lemma prevSlide_iter n i t (k : nat) :
  1 <= n -> 0 <= i < n ->
  Nat.iter k (prevSlide n)
    {| currentIndex := Int i; isTransitioning := false;
       timeouts := []; timer := t |}
  = {| currentIndex := Int ((i - Z.of_nat k) mod n); isTransitioning := false;
       timeouts := []; timer := t |}.
Proof.
  intros Hn Hi. induction k as [|k IH].
  - simpl. by rewrite Z.sub_0_r, Z.mod_small by lia.
  - rewrite Nat.iter_succ, IH, prevSlide_idle;
      [|done|apply Z.mod_pos_bound; lia].
    do 2 f_equal. rewrite Zminus_mod_idemp_l. f_equal. lia.
Qed.

(** X4. Go to index, on a carousel at rest.  Asked for the slide that
    is showing, it does nothing.  Asked for another, it starts a
    transition that leaves the index alone until the timeout, and then
    the index is the one asked for and the carousel is at rest again;
    this holds also when the index was [NaN], which equals no index. *)
Theorem X4_go_to_slide (index : Z) (c : Carousel) :
  isTransitioning c = false -> timeouts c = [] ->
  (currentIndex c = Int index -> goToSlide index c = c)
  /\ (currentIndex c <> Int index ->
        isTransitioning (goToSlide index c) = true
        /\ currentIndex (goToSlide index c) = currentIndex c
        /\ thisSlide index c
           = {| currentIndex := Int index; isTransitioning := false;
                timeouts := []; timer := timer c |}).
Proof.
  intros Hb Hq. split; [apply goToSlide_current|].
  intros Hne.
  assert (num_is index (currentIndex c) = false) as Hno.
  { destruct (currentIndex c) as [z|]; [|done]. simpl.
    apply Z.eqb_neq. congruence. }
  unfold thisSlide, goToSlide, timeoutElapsed.
  rewrite Hb, Hno. simpl. by rewrite Hq.
Qed.

(** X5. On a carousel at rest on one of its slides, go previous undoes
    go next and go next undoes go previous: after the two transitions
    the carousel is in the state it started in. *)
Theorem X5_next_prev_inverse (totalSlides i : Z) (c : Carousel) :
  1 <= totalSlides -> 0 <= i < totalSlides ->
  currentIndex c = Int i -> isTransitioning c = false -> timeouts c = [] ->
  prevSlide totalSlides (nextSlide totalSlides c) = c
  /\ nextSlide totalSlides (prevSlide totalSlides c) = c.
Proof.
  intros Hn Hi Hc Hb Hq. rewrite (idle_carousel c (Int i)) by done.
  cbn [timer].
  rewrite (nextSlide_idle totalSlides i), (prevSlide_idle totalSlides i)
    by lia.
  pose proof (Z.mod_pos_bound (i + 1) totalSlides).
  pose proof (Z.mod_pos_bound (i - 1) totalSlides).
  rewrite prevSlide_idle, nextSlide_idle by lia.
  rewrite Zminus_mod_idemp_l, Z.add_mod_idemp_l by lia.
  replace (i + 1 - 1) with i by lia. replace (i - 1 + 1) with i by lia.
  by rewrite !Z.mod_small by lia.
Qed.

(** X6. On a carousel at rest on slide [i], [k] go-next operations,
    each completed, lead to slide [(i + k) mod totalSlides] and [k]
    go-previous operations to slide [(i - k) mod totalSlides]; going
    round all [totalSlides] slides in either direction ends in the
    state it started in. *)
Theorem X6_steps_round_the_carousel (totalSlides i : Z) (c : Carousel) :
  1 <= totalSlides -> 0 <= i < totalSlides ->
  currentIndex c = Int i -> isTransitioning c = false -> timeouts c = [] ->
  (forall k : nat,
     currentIndex (Nat.iter k (nextSlide totalSlides) c)
       = Int ((i + Z.of_nat k) mod totalSlides)
     /\ currentIndex (Nat.iter k (prevSlide totalSlides) c)
       = Int ((i - Z.of_nat k) mod totalSlides))
  /\ Nat.iter (Z.to_nat totalSlides) (nextSlide totalSlides) c = c
  /\ Nat.iter (Z.to_nat totalSlides) (prevSlide totalSlides) c = c.
Proof.
  intros Hn Hi Hc Hb Hq. rewrite (idle_carousel c (Int i)) by done.
  cbn [timer]. split.
  { intros k. by rewrite nextSlide_iter, prevSlide_iter. }
  rewrite nextSlide_iter, prevSlide_iter by done.
  rewrite Z2Nat.id by lia.
  replace (i + totalSlides) with (i + 1 * totalSlides) by lia.
  replace (i - totalSlides) with (i + (-1) * totalSlides) by lia.
  by rewrite !Z.mod_add, Z.mod_small by lia.
Qed.

(** *** The paginator in the running component *)

Lemma sentinelObserved_true f :
  sentinelObserved true f = loadMoreFeedProducts f.
Proof.
  unfold sentinelObserved. simpl.
  destruct (feedHasMore f) eqn:Hm, (feedLoading f) eqn:Hl; simpl;
    try done; symmetry; apply loadMoreFeedProducts_skips; auto.
Qed.

(** What an event can do to the feed. *)
Lemma feed_step e v :
  feed (step e v) = feed v
  \/ (exists o, feed (step e v) = feedSettled o (feed v))
  \/ feed (step e v) = loadMoreFeedProducts (feed v).
Proof.
  destruct e as [| | | |index|o|o|b]; simpl; try by left.
  - left. by destruct (_ && _).
  - left. destruct (productsAwaiting v); [|done]. by destruct o.
  - right. left. by exists o.
  - destruct b; [right; right; apply sentinelObserved_true|by left].
Qed.

Lemma feed_inv_mount : feed_inv (feed mount).
Proof.
  repeat split; simpl; try done; try lia.
  - repeat constructor.
  - exists 0%nat. unfold next_or_same. repeat split; try done; lia.
Qed.

Lemma feed_inv_loadMore f : feed_inv f -> feed_inv (loadMoreFeedProducts f).
Proof.
  intros Hf. pose proof Hf as (Hfl & Hb & Hs & Hh & p & Hlast & Hp & Hpl).
  unfold loadMoreFeedProducts.
  destruct (feedLoading f) eqn:Hl; [done|].
  destruct (feedHasMore f) eqn:Hm; [|done]. simpl.
  apply last_Some in Hlast as [calls Hcalls].
  unfold feed_inv. simpl. rewrite Hfl. split; [done|]. split; [done|].
  split.
  { apply Sorted_snoc; [done|]. rewrite Hcalls. by constructor. }
  split.
  { rewrite Hcalls in Hh |- *. by destruct calls. }
  exists (feedPage f). rewrite last_snoc. unfold next_or_same.
  repeat split; try done; lia.
Qed.

Lemma feed_inv_settled o f : feed_inv f -> feed_inv (feedSettled o f).
Proof.
  intros Hf. pose proof Hf as (Hfl & Hb & Hs & Hh & p & Hlast & Hp & Hpl).
  unfold feedSettled.
  destruct (feedLoading f) eqn:Hl; [|by rewrite Hfl].
  destruct Hfl as [Hm Ha]. rewrite Ha. specialize (Hpl eq_refl). subst p.
  unfold loadMoreSettled, feed_inv, next_or_same in *.
  destruct o as [data|]; [|simpl; eauto 10].
  pose proof (pageData_length (feedPage f) data) as Hlen.
  destruct (Nat.eqb_spec (length (pageData (feedPage f) data)) 0)
    as [Hz|Hz]; simpl; [eauto 10|].
  rewrite length_app. unfold pageSize in *.
  repeat split; try done; try lia.
  exists (feedPage f). repeat split; try done; lia.
Qed.

Lemma reachable_feed_inv v : reachable v -> feed_inv (feed v).
Proof.
  induction 1 as [|e v Hr IH]; [apply feed_inv_mount|].
  destruct (feed_step e v) as [-> | [[o ->] | ->]];
    [done|by apply feed_inv_settled|by apply feed_inv_loadMore].
Qed.

(** X7. At any time at most one call to the product service is
    outstanding for the feed.  The loading flag is set exactly while it
    is, the call was made for the page the counter is at, and the feed
    was not exhausted when it was made. *)
Theorem X7_feed_single_flight (v : View) :
  reachable v ->
  (feedLoading (feed v) = true <-> feedAwaiting (feed v) <> [])
  /\ (length (feedAwaiting (feed v)) <= 1)%nat
  /\ (forall page, page ∈ feedAwaiting (feed v) -> page = feedPage (feed v))
  /\ (feedLoading (feed v) = true -> feedHasMore (feed v) = true).
Proof.
  intros Hr. destruct (reachable_feed_inv v Hr) as (Hfl & _).
  destruct (feedLoading (feed v)).
  - destruct Hfl as [Hm ->]. split; [done|]. split; [simpl; lia|].
    split; [|done]. intros page Hin.
    by apply list_elem_of_singleton in Hin.
  - rewrite Hfl. split; [done|]. split; [simpl; lia|].
    split; [|done]. intros page Hin. by apply elem_of_nil in Hin.
Qed.

(** X8. The page counter counts the pages in the feed: the feed holds
    at least one product and at most 12 for each page counted, whatever
    the service returned from call to call. *)
Theorem X8_feed_page_bounds (v : View) :
  reachable v ->
  (feedPage (feed v) <= length (feedProducts (feed v)))%nat
  /\ (length (feedProducts (feed v)) <= feedPage (feed v) * 12)%nat
  /\ (feedPage (feed v) = 0%nat <-> feedProducts (feed v) = []).
Proof.
  intros Hr. destruct (reachable_feed_inv v Hr) as (_ & [Hlo Hhi] & _).
  unfold pageSize in Hhi. split; [done|]. split; [done|]. split.
  - intros Hz. apply nil_length_inv. lia.
  - intros Hnil. rewrite Hnil in Hlo. simpl in Hlo. lia.
Qed.

(** X9. Pages are asked for in order.  The first call to the product
    service is for page 0; every later call is for the page of the call
    before it, after a failure, or for the next one; the latest call
    was for the page the counter is at or the one before. *)
Theorem X9_pages_requested_in_order (v : View) :
  reachable v ->
  head (feedCalls (feed v)) = Some 0%nat
  /\ Sorted next_or_same (feedCalls (feed v))
  /\ exists latest, last (feedCalls (feed v)) = Some latest
       /\ (latest <= feedPage (feed v) <= S latest)%nat.
Proof.
  intros Hr.
  destruct (reachable_feed_inv v Hr) as (_ & _ & Hs & Hh & p & Hl & Hp & _).
  split; [done|]. split; [done|]. by exists p.
Qed.

Lemma feedSettled_grows o f :
  (exists more, feedProducts (feedSettled o f) = feedProducts f ++ more)
  /\ (feedPage f <= feedPage (feedSettled o f))%nat
  /\ (feedHasMore f = false -> feedHasMore (feedSettled o f) = false).
Proof.
  unfold feedSettled. destruct (feedAwaiting f) as [|page rest].
  { split; [exists []; by rewrite app_nil_r|done]. }
  split; [|split].
  - destruct o as [data|].
    + exists (pageData page data). by rewrite loadMoreSettled_appends.
    + exists []. by rewrite app_nil_r.
  - destruct o as [data|]; simpl; [|done].
    destruct (_ =? _)%nat; simpl; lia.
  - intros Hm. destruct o as [data|]; simpl; [|done].
    destruct (_ =? _)%nat; simpl; [done|]. by destruct (_ <=? _)%nat.
Qed.

Lemma loadMoreFeedProducts_keeps f :
  feedProducts (loadMoreFeedProducts f) = feedProducts f
  /\ feedPage (loadMoreFeedProducts f) = feedPage f
  /\ feedHasMore (loadMoreFeedProducts f) = feedHasMore f.
Proof. unfold loadMoreFeedProducts. by destruct (_ || _). Qed.

Lemma feed_step_grows e v :
  (exists more,
     feedProducts (feed (step e v)) = feedProducts (feed v) ++ more)
  /\ (feedPage (feed v) <= feedPage (feed (step e v)))%nat
  /\ (feedHasMore (feed v) = false -> feedHasMore (feed (step e v)) = false).
Proof.
  destruct (feed_step e v) as [-> | [[o ->] | ->]].
  - split; [exists []; by rewrite app_nil_r|done].
  - apply feedSettled_grows.
  - destruct (loadMoreFeedProducts_keeps (feed v)) as (-> & -> & ->).
    split; [exists []; by rewrite app_nil_r|done].
Qed.

(** X10. The feed only grows and only gets nearer its end.  Over any
    sequence of events, from any state, the products already in the
    feed stay where they are and new ones are added after them, the
    page counter does not go down, and the has-more flag, once false,
    stays false. *)
Theorem X10_feed_append_only (es : list event) (v : View) :
  (exists more,
     feedProducts (feed (run es v)) = feedProducts (feed v) ++ more)
  /\ (feedPage (feed v) <= feedPage (feed (run es v)))%nat
  /\ (feedHasMore (feed v) = false ->
        feedHasMore (feed (run es v)) = false).
Proof.
  induction es as [|e es ((more & Hmore) & Hpage & Hm)] using rev_ind.
  { split; [exists []; by rewrite app_nil_r|done]. }
  rewrite run_snoc.
  destruct (feed_step_grows e (run es v)) as ((more' & Hmore') & Hpage' & Hm').
  split; [|split].
  - exists (more ++ more'). by rewrite Hmore', Hmore, app_assoc.
  - lia.
  - auto.
Qed.

(** X11. Once the feed is marked exhausted nothing is outstanding, and
    nothing that happens afterwards changes the feed or calls the
    product service again: there is no way to reload or refresh it. *)
Theorem X11_exhausted_feed_is_final (v : View) (es : list event) :
  reachable v -> feedHasMore (feed v) = false ->
  feedLoading (feed v) = false
  /\ feedAwaiting (feed v) = []
  /\ feed (run es v) = feed v.
Proof.
  intros Hr Hm. destruct (reachable_feed_inv v Hr) as (Hfl & _).
  destruct (feedLoading (feed v)) eqn:Hl; [destruct Hfl; congruence|].
  split; [done|]. split; [done|].
  induction es as [|e es IH] using rev_ind; [done|].
  rewrite run_snoc.
  destruct (feed_step e (run es v)) as [-> | [[o ->] | ->]]; [done|..];
    rewrite IH.
  - by apply feedSettled_idle.
  - apply loadMoreFeedProducts_skips. by right.
Qed.

Lemma fetchedFeed_calls data n :
  feedCalls (fetchedFeed data n)
  = seq 0 (n `min` (1 `max` pageCount (length data))).
Proof.
  pose proof (pageCount_bounds (length data)) as Hc. unfold pageSize in Hc.
  induction n as [|n IH]; [done|].
  destruct (fetchedFeed_state data n) as (_ & Hg & Hm & Hl & Ha).
  unfold pageSize in *.
  rewrite fetchedFeed_succ.
  destruct (feedHasMore (fetchedFeed data n)) eqn:Hmore.
  - assert (n < 1 `max` pageCount (length data))%nat as Hn.
    { destruct (decide (n = 0%nat)); [lia|].
      destruct (decide (n * 12 < length data)%nat); [lia|].
      assert (true = false); [apply Hm; lia|done]. }
    rewrite fetchFeed_idle by done.
    assert (forall f, feedCalls (loadMoreSettled
                        (feedPage (fetchedFeed data n)) (Resolved data) f)
                      = feedCalls f) as ->.
    { intros f. unfold loadMoreSettled. by destruct (_ =? _)%nat. }
    cbn [feedCalls]. rewrite IH, Hg.
    replace (S n `min` (1 `max` pageCount (length data)))%nat
      with (S n) by lia.
    replace (n `min` (1 `max` pageCount (length data)))%nat with n by lia.
    replace (n `min` pageCount (length data))%nat with n by lia.
    by rewrite seq_S.
  - destruct Hm as [Hm _]. specialize (Hm eq_refl).
    rewrite fetchFeed_exhausted by done. rewrite IH. f_equal. lia.
Qed.

Lemma scrolled_feed data n :
  feed (scrolled data n) = loadMoreFeedProducts (fetchedFeed data n).
Proof.
  induction n as [|n IH]; [done|].
  unfold scrolled in *. rewrite Nat.iter_succ. unfold scroll at 1.
  change (feed (step (SentinelObserved true) ?w))
    with (sentinelObserved true (feed w)).
  change (feed (step (FeedSettled ?o) ?w)) with (feedSettled o (feed w)).
  by rewrite IH, sentinelObserved_true.
Qed.

(** X12. If the product service keeps returning the same collection
    and the sentinel is observed in the viewport after every page, the
    feed ends up holding the whole collection, sorted, every product
    once, in descending order of identifier; the feed is then exhausted
    and idle.  That takes one call to the service for each page and
    none beyond, and one call when the collection is empty. *)
Theorem X12_scrolling_loads_everything (data : list Product) (n : nat) :
  (1 `max` pageCount (length data) <= n)%nat ->
  feedProducts (feed (scrolled data n)) = sortedData data
  /\ feedProducts (feed (scrolled data n)) ≡ₚ data
  /\ feedPage (feed (scrolled data n)) = pageCount (length data)
  /\ feedHasMore (feed (scrolled data n)) = false
  /\ feedLoading (feed (scrolled data n)) = false
  /\ feedCalls (feed (scrolled data n))
     = seq 0 (1 `max` pageCount (length data))
  /\ descending (feedProducts (feed (scrolled data n))).
Proof.
  intros Hn. pose proof (pageCount_bounds (length data)) as Hc.
  unfold pageSize in Hc.
  destruct (fetchedFeed_state data n) as (Hp & Hg & Hm & Hl & Ha).
  unfold pageSize in *.
  assert (feedHasMore (fetchedFeed data n) = false) as Hmore
    by (apply Hm; lia).
  rewrite scrolled_feed, loadMoreFeedProducts_skips by auto.
  rewrite Hp, Hg, fetchedFeed_calls.
  rewrite take_ge by (rewrite sortedData_length; lia).
  split; [done|]. split; [apply sortedData_perm|].
  split; [lia|]. split; [done|]. split; [done|].
  split; [f_equal; lia|apply sortedData_descending].
Qed.

(** *** The hero section in the running component *)

Lemma flag_inv_begin t c :
  isTransitioning c = false -> flag_inv c -> flag_inv (beginTransition t c).
Proof.
  intros Hb [Ha Hn]. split; simpl.
  - intros _. by destruct (timeouts c).
  - intros Ht. destruct (Hn Ht) as [_ Hq].
    destruct (timeouts c) as [|t' q]; [simpl; auto|].
    rewrite Hq in Hb; done.
Qed.

Lemma flag_inv_interval c : flag_inv c -> flag_inv (intervalElapsed c).
Proof.
  intros Hc. unfold intervalElapsed.
  destruct (timer c) as [n|] eqn:Ht; [|done]. split; simpl.
  - intros _. by destruct (timeouts c).
  - by rewrite Ht.
Qed.

Lemma flag_inv_timeout c : flag_inv c -> flag_inv (timeoutElapsed c).
Proof.
  intros Hc. pose proof Hc as [Ha Hn]. unfold timeoutElapsed.
  destruct (timeouts c) as [|t rest] eqn:Hq; [done|].
  split; simpl; [done|]. intros Ht. destruct (Hn Ht) as [Hlen _].
  destruct rest; [split; [simpl; lia|done]|simpl in Hlen; lia].
Qed.

Lemma flag_inv_autoRotate n c :
  timer c = None -> flag_inv c -> flag_inv (autoRotate n c).
Proof. intros Ht [Ha Hn]. split; simpl; auto. Qed.

Lemma intervalElapsed_timer c : timer (intervalElapsed c) = timer c.
Proof. unfold intervalElapsed. by destruct (timer c) eqn:Ht. Qed.

Lemma timeoutElapsed_timer c : timer (timeoutElapsed c) = timer c.
Proof. unfold timeoutElapsed. by destruct (timeouts c). Qed.

Lemma view_inv_hero g v :
  timer (g (hero v)) = timer (hero v) -> flag_inv (g (hero v)) ->
  view_inv v -> view_inv (withHero g v).
Proof.
  intros Ht Hg (H1 & H2 & H3 & H4 & H5 & _).
  unfold view_inv, withHero. simpl. by rewrite Ht.
Qed.

Lemma view_inv_step e v : view_inv v -> view_inv (step e v).
Proof.
  intros Hv. pose proof Hv as (H1 & H2 & H3 & H4 & H5 & H6).
  destruct e as [| | | |index|o|o|b]; simpl.
  - apply view_inv_hero; [|by apply flag_inv_interval|done].
    apply intervalElapsed_timer.
  - apply view_inv_hero; [|by apply flag_inv_timeout|done].
    apply timeoutElapsed_timer.
  - apply view_inv_hero; [| |done]; unfold goToNext;
      destruct (isTransitioning (hero v)) eqn:Hb; try done.
    by apply flag_inv_begin.
  - apply view_inv_hero; [| |done]; unfold goToPrev;
      destruct (isTransitioning (hero v)) eqn:Hb; try done.
    by apply flag_inv_begin.
  - destruct (_ && _); [|done].
    apply view_inv_hero; [| |done]; unfold goToSlide;
      destruct (isTransitioning (hero v)) eqn:Hb; try done;
      simpl; destruct (num_is _ _); try done.
    by apply flag_inv_begin.
  - destruct (productsAwaiting v) eqn:Hw; [|done].
    destruct (H2 eq_refl) as [Hp He].
    assert (timer (hero v) = None) as Ht by (by rewrite H5, Hp).
    destruct o as [data|]; unfold view_inv; simpl.
    + split; [done|]. split; [done|]. split; [done|].
      split; [by exists data|]. split; [done|].
      by apply flag_inv_autoRotate.
    + split; [done|]. split; [done|]. split; [done|]. done.
  - done.
  - done.
Qed.

Lemma view_inv_mount : view_inv mount.
Proof.
  unfold view_inv, flag_inv. simpl.
  repeat split; try done; try (by exists []); simpl; lia.
Qed.

Lemma reachable_view_inv v : reachable v -> view_inv v.
Proof.
  induction 1 as [|e v Hr IH]; [apply view_inv_mount|].
  by apply view_inv_step.
Qed.

Lemma settled_step e v :
  productsAwaiting v = false ->
  products (step e v) = products v /\ loading (step e v) = loading v
  /\ error (step e v) = error v /\ productsAwaiting (step e v) = false.
Proof.
  intros Hw. destruct e as [| | | |index|o|o|b]; simpl; try done.
  - by destruct (_ && _).
  - by rewrite Hw.
Qed.

Lemma heroProduct_below v :
  index_below (heroSlides (products v)) (currentIndex (hero v)) ->
  exists i p, currentIndex (hero v) = Int (Z.of_nat i)
    /\ (i < length (take 5 (products v)))%nat
    /\ products v !! i = Some p
    /\ heroProduct v = Some p.
Proof.
  intros (z & Hz & Hlt). rewrite <- heroSlides_take in Hlt.
  destruct (lookup_lt_is_Some_2 (products v) (Z.to_nat z)) as [p Hp].
  { rewrite length_take in Hlt. lia. }
  exists (Z.to_nat z), p. rewrite Z2Nat.id by lia.
  split; [done|]. split; [lia|]. split; [done|].
  unfold heroProduct, at_index. rewrite Hz.
  by destruct (Z.leb_spec 0 z); [|lia].
Qed.

(** X13. The transition flag cannot stay set.  Whenever it is set a
    timeout is pending, and the next timeout to run clears it, so the
    arrows and indicators are never disabled for good.  While there is
    at most one slide no interval is set, at most one timeout is
    pending, and the flag is set exactly while one is. *)
Theorem X13_transition_flag_never_stuck (v : View) :
  reachable v ->
  (isTransitioning (hero v) = true ->
     timeouts (hero v) <> []
     /\ isTransitioning (hero (step TimeoutElapsed v)) = false)
  /\ (heroSlides (products v) <= 1 ->
        timer (hero v) = None
        /\ (length (timeouts (hero v)) <= 1)%nat
        /\ (isTransitioning (hero v) = true <-> timeouts (hero v) <> [])).
Proof.
  intros Hr.
  destruct (reachable_view_inv v Hr) as (_ & _ & _ & _ & Ht & Ha & Hn).
  split.
  - intros Hb. split; [by apply Ha|]. simpl. unfold timeoutElapsed.
    specialize (Ha Hb). by destruct (timeouts (hero v)).
  - intros Hle.
    assert (timer (hero v) = None) as Hnone.
    { rewrite Ht. by destruct (Z.leb_spec (heroSlides (products v)) 1);
        [|lia]. }
    destruct (Hn Hnone) as [Hlen Hq]. by repeat split.
Qed.

(** X14. The hot list as the initial fetch leaves it.  The loading flag
    is set exactly while that fetch is outstanding, and then there are
    no products and no error.  An error message is only ever there with
    no products, the loading flag cleared and the grid not rendered.
    The products are in descending order of identifier, at most 8, and
    give between 0 and 5 slides; the grid, when rendered, shows exactly
    them. *)
Theorem X14_hot_list_state (v : View) :
  reachable v ->
  loading v = productsAwaiting v
  /\ (loading v = true -> products v = [] /\ error v = None)
  /\ (falsy (error v) = false ->
        products v = [] /\ loading v = false /\ hotArts v = None)
  /\ descending (products v)
  /\ (length (products v) <= 8)%nat
  /\ 0 <= heroSlides (products v) <= 5
  /\ (forall shown, hotArts v = Some shown ->
        shown = products v /\ loading v = false /\ falsy (error v) = true).
Proof.
  intros Hr.
  destruct (reachable_view_inv v Hr) as (H1 & H2 & H3 & [data H4] & _).
  split; [done|]. split; [by rewrite H1|]. split.
  { intros He. split; [by apply H3|].
    assert (loading v = false) as Hl.
    { rewrite H1. destruct (productsAwaiting v); [|done].
      destruct (H2 eq_refl) as [_ Hnone]. by rewrite Hnone in He. }
    split; [done|]. unfold hotArts. by rewrite He, andb_false_r. }
  split.
  { rewrite H4. apply descending_slice, sortedData_descending. }
  split.
  { rewrite H4, slice_take, length_take. lia. }
  split.
  { unfold heroSlides. lia. }
  intros shown. unfold hotArts.
  destruct (loading v), (falsy (error v)); simpl; try done.
  intros [= <-]. done.
Qed.

(** X15. The initial fetch is made once and its outcome is final.
    Once it has settled, no sequence of events changes the products,
    the loading flag or the error: a failed load is never retried, and
    a loaded hot list is never refreshed. *)
Theorem X15_initial_fetch_is_final (v : View) (es : list event) :
  productsAwaiting v = false ->
  products (run es v) = products v
  /\ loading (run es v) = loading v
  /\ error (run es v) = error v
  /\ productsAwaiting (run es v) = false.
Proof.
  intros Hw. induction es as [|e es (Hp & Hl & He & Hw')] using rev_ind;
    [done|].
  rewrite run_snoc.
  destruct (settled_step e (run es v) Hw') as (-> & -> & -> & ->). done.
Qed.

(** X16. When there are products, and no arrow was clicked while there
    were none, the index is that of one of the first five products:
    the hero section shows that product, under its name unless that is
    empty, and GET IT NOW leads to it.  With more than one slide there
    is an indicator for each slide and exactly one is active, the one
    at the index. *)
Theorem X16_hero_shows_a_product (v : View) :
  reachable_with_slides v -> products v <> [] ->
  exists i p,
    currentIndex (hero v) = Int (Z.of_nat i)
    /\ take 5 (products v) !! i = Some p
    /\ heroProduct v = Some p
    /\ getItNow v = Some (pid p)
    /\ heroTitle v = or_else (Some (productname p)) "Eye in Abstract"
    /\ (1 < heroSlides (products v) ->
          Z.of_nat (length (indicators v)) = heroSlides (products v)
          /\ forall k, indicators v !! k = Some true <-> k = i).
Proof.
  intros Hr Hne.
  assert (1 <= heroSlides (products v)) as Hn.
  { unfold heroSlides. destruct (products v); [done|]. simpl length. lia. }
  destruct (reachable_with_slides_inv v Hr) as (_ & _ & _ & Hi).
  destruct (Hi Hn) as [Hbelow _].
  destruct (heroProduct_below v Hbelow) as (i & p & Hidx & Hlt & Hp & Hhp).
  exists i, p. split; [done|]. split.
  { rewrite lookup_take_lt; [done|]. rewrite length_take in Hlt. lia. }
  split; [done|].
  assert ((0 <? length (products v))%nat = true) as Hlen.
  { apply Nat.ltb_lt. destruct (products v); [done|]. simpl. lia. }
  split; [unfold getItNow; by rewrite Hlen, Hhp|].
  split; [unfold heroTitle; by rewrite Hlen, Hhp|].
  intros Hgt. unfold indicators.
  destruct (Z.ltb_spec 1 (heroSlides (products v))); [|lia].
  split; [by rewrite length_imap, heroSlides_take|].
  intros k. rewrite list_lookup_imap, Hidx. simpl. split.
  - destruct (take 5 (products v) !! k); [|done]. simpl.
    intros [= Hk]. apply Z.eqb_eq in Hk. lia.
  - intros ->. destruct (lookup_lt_is_Some_2 _ _ Hlt) as [q ->]. simpl.
    by rewrite Z.eqb_refl.
Qed.

(** *** The aurora palette *)

Lemma products_step e v :
  view_inv v -> products (step e v) = products v \/ products v = [].
Proof.
  intros (_ & Hw & _). destruct (productsAwaiting v) eqn:Ha.
  - right. by apply Hw.
  - left. by apply settled_step.
Qed.

Lemma heroImage_product v url :
  heroImage v = Some url ->
  exists p, p ∈ products v /\ imageOf p = Some url.
Proof.
  unfold heroImage, heroProduct, at_index.
  destruct (currentIndex (hero v)) as [i|]; [|done].
  destruct (0 <=? i); [|done].
  destruct (products v !! Z.to_nat i) as [p|] eqn:Hp; [|done].
  intros Hurl. exists p. split; [|done]. by eapply list_elem_of_lookup_2.
Qed.

Lemma page_inv_update pg : page_inv pg -> page_inv (updateAuroraColors pg).
Proof.
  intros Hpg. pose proof Hpg as (Hv & He & Ha). unfold updateAuroraColors.
  destruct (0 <? length (products (view pg)))%nat; [|done].
  destruct (heroImage (view pg)) as [url|] eqn:Hurl; [|done].
  split; [done|]. split; [|done]. simpl. intros url' Hin.
  apply elem_of_app in Hin as [Hin|Hin]; [by apply He|].
  apply list_elem_of_singleton in Hin as ->. by apply heroImage_product.
Qed.

Section AuroraProperties.

Context {Colors : Type} (enhance : Colors -> list string).

Lemma page_inv_step e pg : page_inv pg -> page_inv (pageStep enhance e pg).
Proof.
  intros Hpg. pose proof Hpg as (Hv & He & Ha).
  destruct e as [e|k extracted]; simpl.
  - assert (page_inv {| view := step e (view pg);
                        auroraColors := auroraColors pg;
                        extracting := extracting pg |}) as Hpg'.
    { split; [by apply view_inv_step|]. simpl.
      destruct (products_step e (view pg) Hv) as [-> | Hnil]; [done|].
      rewrite Hnil in He, Ha. split.
      - intros url Hin. destruct (He url Hin) as (p & Hp & _).
        by apply elem_of_nil in Hp.
      - left. destruct Ha as [Ha | (p & Hp & _)]; [done|].
        by apply elem_of_nil in Hp. }
    destruct (_ || _); [by apply page_inv_update|done].
  - destruct (extracting pg !! k) as [url|] eqn:Hk; [|done].
    split; [done|]. simpl. split.
    + intros url' Hin. apply He. by eapply list_elem_of_delete_inv.
    + right. destruct (He url) as (p & Hp & Hurl).
      { by eapply list_elem_of_lookup_2. }
      exists p. by rewrite Hurl.
Qed.

Lemma page_inv_run es : page_inv (pageRun enhance es pageMount).
Proof.
  induction es as [|e es IH] using rev_ind.
  - split; [apply view_inv_mount|]. split; [|by left].
    intros url Hin. by apply elem_of_nil in Hin.
  - unfold pageRun in *. rewrite foldl_app. by apply page_inv_step.
Qed.

(** X17. The aurora palette and the product images.  Whatever has
    happened since mount, every colour extraction that is outstanding
    was asked of the image of a stored product.  So as long as no
    stored product has an image, in particular before the products
    arrive and after a failed load, no extraction is outstanding and
    the palette is the initial one. *)
Theorem X17_palette_needs_an_image (es : list (pageEvent Colors)) :
  let pg := pageRun enhance es pageMount in
  (forall url, url ∈ extracting pg ->
     exists p, p ∈ products (view pg) /\ imageOf p = Some url)
  /\ (~ has_image (products (view pg)) ->
        extracting pg = [] /\ auroraColors pg = defaultColors).
Proof.
  intros pg. destruct (page_inv_run es) as (_ & He & Ha). fold pg in He, Ha.
  split; [done|]. intros Hno. split.
  - destruct (extracting pg) as [|url q] eqn:Hq; [done|].
    destruct (He url) as (p & Hp & Hurl); [left|].
    destruct Hno. exists p. by rewrite Hurl.
  - by destruct Ha.
Qed.

End AuroraProperties.

(** *** Concrete runs of the further properties *)

Lemma X2_sort_forgets_source_order_witness :
  NoDup (pid <$> five) /\ five ≡ₚ reverse five
  /\ sortedData five = sortedData (reverse five).
Proof.
  assert (NoDup (pid <$> five)) as Hnd.
  { apply (bool_decide_unpack (NoDup (pid <$> five))). vm_compute. exact I. }
  assert (five ≡ₚ reverse five) as Hp.
  { symmetry. apply reverse_Permutation. }
  split; [exact Hnd|]. split; [exact Hp|].
  apply (X2_sort_forgets_source_order five (reverse five) Hnd Hp).
Defined.

Lemma X3_pages_partition_witness :
  (S 0 < pageCount (length twenty))%nat
  /\ length (pageData 0 twenty) = 12%nat
  /\ pageData 2 twenty = [].
Proof.
  assert (S 0 < pageCount (length twenty))%nat as Hlt by (vm_compute; lia).
  assert (pageCount (length twenty) <= 2)%nat as Hge by (vm_compute; lia).
  destruct (X3_pages_partition twenty) as (_ & _ & _ & Hfull & Hnone).
  split; [exact Hlt|]. split; [exact (Hfull 0%nat Hlt)|exact (Hnone 2%nat Hge)].
Defined.

Lemma X4_go_to_slide_witness :
  thisSlide 2 (resting 5 (Int 0)) = resting 5 (Int 2)
  /\ thisSlide 2 (resting 5 NaN) = resting 5 (Int 2)
  /\ goToSlide 2 (resting 5 (Int 2)) = resting 5 (Int 2).
Proof.
  destruct (X4_go_to_slide 2 (resting 5 (Int 0)) eq_refl eq_refl)
    as [_ Hother].
  destruct (X4_go_to_slide 2 (resting 5 NaN) eq_refl eq_refl)
    as [_ Hnan].
  destruct (X4_go_to_slide 2 (resting 5 (Int 2)) eq_refl eq_refl)
    as [Hsame _].
  split; [apply Hother; discriminate|].
  split; [apply Hnan; discriminate|apply Hsame; reflexivity].
Defined.

Lemma X5_next_prev_inverse_witness :
  prevSlide 5 (nextSlide 5 (resting 5 (Int 4))) = resting 5 (Int 4)
  /\ nextSlide 5 (prevSlide 5 (resting 5 (Int 0))) = resting 5 (Int 0).
Proof.
  assert (1 <= 5) as Hn by lia.
  assert (0 <= 4 < 5) as H4 by lia. assert (0 <= 0 < 5) as H0 by lia.
  split.
  - apply (X5_next_prev_inverse 5 4 (resting 5 (Int 4)) Hn H4
             eq_refl eq_refl eq_refl).
  - apply (X5_next_prev_inverse 5 0 (resting 5 (Int 0)) Hn H0
             eq_refl eq_refl eq_refl).
Defined.

Lemma X6_steps_round_the_carousel_witness :
  currentIndex (Nat.iter 7 (nextSlide 5) (resting 5 (Int 4))) = Int 1
  /\ currentIndex (Nat.iter 7 (prevSlide 5) (resting 5 (Int 4))) = Int 2
  /\ Nat.iter 5 (nextSlide 5) (resting 5 (Int 4)) = resting 5 (Int 4).
Proof.
  assert (1 <= 5) as Hn by lia. assert (0 <= 4 < 5) as Hi by lia.
  destruct (X6_steps_round_the_carousel 5 4 (resting 5 (Int 4)) Hn Hi
              eq_refl eq_refl eq_refl) as (Hk & Hround & _).
  destruct (Hk 7%nat) as [Hnext Hprev].
  split; [exact Hnext|]. split; [exact Hprev|exact Hround].
Defined.

Lemma X7_feed_single_flight_witness :
  let v := run [FeedSettled (Resolved twenty); SentinelObserved true] mount in
  reachable v
  /\ feedAwaiting (feed v) = [1%nat]
  /\ (length (feedAwaiting (feed v)) <= 1)%nat
  /\ feedLoading (feed v) = true.
Proof.
  intros v. assert (reachable v) as Hr by apply reachable_run.
  destruct (X7_feed_single_flight v Hr) as (Hload & Hone & _).
  split; [exact Hr|]. split; [reflexivity|]. split; [exact Hone|].
  apply Hload. discriminate.
Defined.

Lemma X8_feed_page_bounds_witness :
  let v := run [FeedSettled (Resolved twenty); SentinelObserved true;
                FeedSettled (Resolved five)] mount in
  reachable v
  /\ (feedPage (feed v) <= length (feedProducts (feed v)))%nat
  /\ (length (feedProducts (feed v)) <= feedPage (feed v) * 12)%nat.
Proof.
  intros v. assert (reachable v) as Hr by apply reachable_run.
  destruct (X8_feed_page_bounds v Hr) as (Hlo & Hhi & _).
  split; [exact Hr|]. split; [exact Hlo|exact Hhi].
Defined.

Lemma X9_pages_requested_in_order_witness :
  let v := run [FeedSettled Rejected; SentinelObserved true;
                FeedSettled (Resolved twenty); SentinelObserved true] mount in
  reachable v
  /\ feedCalls (feed v) = [0; 0; 1]%nat
  /\ Sorted next_or_same (feedCalls (feed v)).
Proof.
  intros v. assert (reachable v) as Hr by apply reachable_run.
  destruct (X9_pages_requested_in_order v Hr) as (_ & Hs & _).
  split; [exact Hr|]. split; [reflexivity|exact Hs].
Defined.

Lemma X10_feed_append_only_witness :
  let v := run [FeedSettled (Resolved five)] mount in
  feedHasMore (feed v) = false
  /\ feedHasMore
       (feed (run [SentinelObserved true; FeedSettled (Resolved twenty)] v))
     = false.
Proof.
  intros v.
  destruct (X10_feed_append_only
              [SentinelObserved true; FeedSettled (Resolved twenty)] v)
    as (_ & _ & Hm).
  split; [reflexivity|]. apply Hm. reflexivity.
Defined.

Lemma X11_exhausted_feed_is_final_witness :
  let v := run [FeedSettled (Resolved five)] mount in
  reachable v /\ feedHasMore (feed v) = false
  /\ feed (run [SentinelObserved true; FeedSettled (Resolved twenty)] v)
     = feed v.
Proof.
  intros v. assert (reachable v) as Hr by apply reachable_run.
  destruct (X11_exhausted_feed_is_final v
              [SentinelObserved true; FeedSettled (Resolved twenty)]
              Hr eq_refl) as (_ & _ & Hsame).
  split; [exact Hr|]. split; [reflexivity|exact Hsame].
Defined.

Lemma X12_scrolling_loads_everything_witness :
  (1 `max` pageCount (length twenty) <= 2)%nat
  /\ feedProducts (feed (scrolled twenty 2)) = sortedData twenty
  /\ feedCalls (feed (scrolled twenty 2)) = [0; 1]%nat.
Proof.
  assert (1 `max` pageCount (length twenty) <= 2)%nat as Hn
    by (vm_compute; lia).
  destruct (X12_scrolling_loads_everything twenty 2 Hn)
    as (Hall & _ & _ & _ & _ & Hcalls & _).
  split; [exact Hn|]. split; [exact Hall|exact Hcalls].
Defined.

Lemma X13_transition_flag_never_stuck_witness :
  let v := run [ProductsSettled (Resolved five); ClickNext] mount in
  reachable v /\ isTransitioning (hero v) = true
  /\ timeouts (hero v) <> []
  /\ isTransitioning (hero (step TimeoutElapsed v)) = false.
Proof.
  intros v. assert (reachable v) as Hr by apply reachable_run.
  destruct (X13_transition_flag_never_stuck v Hr) as [Hset _].
  destruct (Hset eq_refl) as [Hpending Hclear].
  split; [exact Hr|]. split; [reflexivity|].
  split; [exact Hpending|exact Hclear].
Defined.

Lemma X14_hot_list_state_witness :
  let v := run [ProductsSettled Rejected] mount in
  reachable v /\ falsy (error v) = false
  /\ products v = [] /\ loading v = false /\ hotArts v = None.
Proof.
  intros v. assert (reachable v) as Hr by apply reachable_run.
  destruct (X14_hot_list_state v Hr) as (_ & _ & Herr & _).
  split; [exact Hr|]. split; [reflexivity|]. apply Herr. reflexivity.
Defined.

Lemma X15_initial_fetch_is_final_witness :
  let v := run [ProductsSettled Rejected] mount in
  productsAwaiting v = false
  /\ products (run [ProductsSettled (Resolved five); ClickNext] v) = []
  /\ error (run [ProductsSettled (Resolved five); ClickNext] v) = error v.
Proof.
  intros v.
  destruct (X15_initial_fetch_is_final v
              [ProductsSettled (Resolved five); ClickNext] eq_refl)
    as (Hp & _ & He & _).
  split; [reflexivity|]. split; [exact Hp|exact He].
Defined.

Lemma after_previous_with_slides :
  reachable_with_slides
    (run [ProductsSettled (Resolved five); ClickPrev; TimeoutElapsed] mount).
Proof.
  unfold run. cbn [foldl].
  apply with_slides_step; [|exact I].
  apply with_slides_step; [|vm_compute; discriminate].
  apply with_slides_step; [|exact I].
  apply with_slides_mount.
Defined.

Lemma X16_hero_shows_a_product_witness :
  let v := run [ProductsSettled (Resolved five); ClickPrev; TimeoutElapsed]
             mount in
  reachable_with_slides v /\ products v <> []
  /\ exists i p, currentIndex (hero v) = Int (Z.of_nat i)
       /\ heroProduct v = Some p /\ getItNow v = Some (pid p).
Proof.
  intros v. pose proof after_previous_with_slides as Hr. fold v in Hr.
  assert (products v <> []) as Hne by discriminate.
  destruct (X16_hero_shows_a_product v Hr Hne)
    as (i & p & Hi & _ & Hp & Hgo & _).
  split; [exact Hr|]. split; [exact Hne|].
  exists i, p. split; [exact Hi|]. split; [exact Hp|exact Hgo].
Defined.

Lemma X17_palette_needs_an_image_witness :
  let pg := pageRun (fun colors : list string => colors)
              [OnView (ProductsSettled (Resolved five));
               OnView IntervalElapsed; OnView TimeoutElapsed;
               ExtractionSettled 0 (Some ["#000000"%string])] pageMount in
  ~ has_image (products (view pg))
  /\ currentIndex (hero (view pg)) = Int 1
  /\ extracting pg = [] /\ auroraColors pg = defaultColors.
Proof.
  intros pg.
  assert (~ has_image (products (view pg))) as Hno.
  { intros (p & Hin & Him). apply list_elem_of_In in Hin.
    vm_compute in Hin.
    repeat (destruct Hin as [<- | Hin]; [by inversion Him|]). exact Hin. }
  destruct (X17_palette_needs_an_image (fun colors : list string => colors)
              [OnView (ProductsSettled (Resolved five));
               OnView IntervalElapsed; OnView TimeoutElapsed;
               ExtractionSettled 0 (Some ["#000000"%string])])
    as [_ Hdefault].
  split; [exact Hno|]. split; [reflexivity|]. apply Hdefault. exact Hno.
Defined.
